(** * source-map-loader: the loader of [src/index.ts], embedded in Rocq

    The loader scans a text asset for its last [sourceMappingURL] directive,
    loads the referenced source map (inline or from a file), resolves and
    loads every listed source and returns the text without the directive
    together with the enriched map.

    JavaScript strings are sequences of UTF-16 code units: a code unit is an
    [N], a string a [list N].  Regular expressions are values of the type
    [regex] below, run by a backtracking matcher that follows the
    continuation-passing matcher of ECMAScript.  The node runtime ([path],
    [url], [fs], [Buffer], [JSON]) is a record of functions, [Host]. *)

From Stdlib Require Import String Ascii.
From Stdlib Require Import List NArith Arith Bool Lia.
Import ListNotations.

Set Implicit Arguments.

(** ** Strings *)

Definition cu := N.
Definition str := list cu.

Definition u (s : string) : str := map N_of_ascii (list_ascii_of_string s).

Definition LF : cu := 10%N.
Definition CR : cu := 13%N.

Definition str_eqb (a b : str) : bool :=
  if list_eq_dec N.eq_dec a b then true else false.

(** [s.startsWith(p)] *)
Fixpoint startsWith (p s : str) : bool :=
  match p, s with
  | [], _ => true
  | a :: p', b :: s' => N.eqb a b && startsWith p' s'
  | _ :: _, [] => false
  end.

(** [s.substr(0, n)] *)
Definition substr0 (n : nat) (s : str) : str := firstn n s.

(** [s.replace(pat, empty)] with a string pattern and the empty string as
    replacement: the first occurrence of [pat] in [s] is removed, the rest of
    [s] is kept. *)
Fixpoint replace_first (pat s : str) : str :=
  if startsWith pat s then skipn (length pat) s
  else match s with
       | [] => []
       | c :: tl => c :: replace_first pat tl
       end.

(** ** Regular expressions *)

Module RegExp.

(** Character classes *)

Definition in_range (lo hi c : cu) : bool := (lo <=? c)%N && (c <=? hi)%N.
Arguments in_range (lo hi c)%_N.

(** [\s]: WhiteSpace and LineTerminator of ECMAScript *)
Definition is_space (c : cu) : bool :=
  in_range 9 13 c || N.eqb c 32 || N.eqb c 160 || N.eqb c 5760
  || in_range 8192 8202 c || N.eqb c 8232 || N.eqb c 8233
  || N.eqb c 8239 || N.eqb c 8287 || N.eqb c 12288 || N.eqb c 65279.

(** [[a-zA-Z]] *)
Definition is_alpha (c : cu) : bool := in_range 97 122 c || in_range 65 90 c.

(** [[a-zA-Z0-9+/]] *)
Definition is_base64 (c : cu) : bool :=
  is_alpha c || in_range 48 57 c || N.eqb c 43 || N.eqb c 47.

Definition is_char (x : cu) (c : cu) : bool := N.eqb c x.
Arguments is_char (x c)%_N.

Inductive regex : Type :=
| Eps : regex
| Chr : (cu -> bool) -> regex
| Seq : regex -> regex -> regex
| Alt : regex -> regex -> regex
| Star : regex -> regex
| Group : nat -> regex -> regex
| NegLook : regex -> regex
| Bol : regex
| Eol : regex.

(** a literal, one character after the other *)
Fixpoint Lit (s : str) : regex :=
  match s with
  | [] => Eps
  | c :: tl => Seq (Chr (is_char c)) (Lit tl)
  end.

(** [r+] is [r] then [r*]; [r?] tries [r] first, then nothing *)
Definition Plus (r : regex) : regex := Seq r (Star r).
Definition Opt (r : regex) : regex := Alt r Eps.

(** The state of a match: the index in the input, the input from that
    index on, and the captures made so far (newest first).  No group of the
    patterns of the loader stands under a star, so the captures are never
    reset. *)
Record mstate : Type := MState {
  pos : nat;
  rest : str;
  caps : list (nat * str)
}.

Definition cont := mstate -> option mstate.

Fixpoint get_cap (n : nat) (cs : list (nat * str)) : option str :=
  match cs with
  | [] => None
  | (k, v) :: tl => if Nat.eqb k n then Some v else get_cap n tl
  end.

(** [r*], greedy: one more iteration first, the continuation second.  An
    iteration that consumes nothing is rejected (the empty check of
    RepeatMatcher), so the input length bounds the iterations. *)
Fixpoint star_loop (ma : cont -> mstate -> option mstate) (fuel : nat)
         (k : cont) (st : mstate) : option mstate :=
  match fuel with
  | O => k st
  | S f =>
      match ma (fun st' =>
                  if length (rest st') <? length (rest st)
                  then star_loop ma f k st' else None) st with
      | Some res => Some res
      | None => k st
      end
  end.

Fixpoint m (r : regex) (k : cont) (st : mstate) {struct r} : option mstate :=
  match r with
  | Eps => k st
  | Chr p =>
      match rest st with
      | c :: tl => if p c then k (MState (S (pos st)) tl (caps st)) else None
      | [] => None
      end
  | Seq a b => m a (m b k) st
  | Alt a b =>
      match m a k st with
      | Some res => Some res
      | None => m b k st
      end
  | Star a => star_loop (m a) (S (length (rest st))) k st
  | Group n a =>
      m a (fun st' =>
             k (MState (pos st') (rest st')
                       ((n, firstn (pos st' - pos st) (rest st)) :: caps st')))
        st
  | NegLook a =>
      match m a Some st with
      | Some _ => None
      | None => k st
      end
  | Bol => if Nat.eqb (pos st) 0 then k st else None
  | Eol => match rest st with [] => k st | _ :: _ => None end
  end.

(** What a pattern accepts, as a relation between the state before and the
    state after; the matcher above is proved sound and complete for it. *)
Inductive star_rel (R : mstate -> mstate -> Prop) : mstate -> mstate -> Prop :=
| star_done : forall st, star_rel R st st
| star_step : forall st mid st',
    R st mid -> length (rest mid) < length (rest st) ->
    star_rel R mid st' -> star_rel R st st'.

Fixpoint matches (r : regex) (st st' : mstate) {struct r} : Prop :=
  match r with
  | Eps => st' = st
  | Chr p =>
      exists c tl, rest st = c :: tl /\ p c = true /\
                   st' = MState (S (pos st)) tl (caps st)
  | Seq a b => exists mid, matches a st mid /\ matches b mid st'
  | Alt a b => matches a st st' \/ matches b st st'
  | Star a => star_rel (matches a) st st'
  | Group n a =>
      exists mid, matches a st mid /\
        st' = MState (pos mid) (rest mid)
                     ((n, firstn (pos mid - pos st) (rest st)) :: caps mid)
  | NegLook a => st' = st /\ forall x, ~ matches a st x
  | Bol => st' = st /\ pos st = 0
  | Eol => st' = st /\ rest st = []
  end.

(** patterns without a group *)
Fixpoint group_free (r : regex) : bool :=
  match r with
  | Eps | Chr _ | Bol | Eol | NegLook _ => true
  | Seq a b | Alt a b => group_free a && group_free b
  | Star a => group_free a
  | Group _ _ => false
  end.

(** The result of [exec] / [String.prototype.match] without the g flag:
    [index], [match[0]] and [match[1]]. *)
Record match_result : Type := MatchResult {
  index : nat;
  whole : str;
  group1 : option str
}.

(** Leftmost match: the pattern is tried at every index from [i] on. *)
Fixpoint search (r : regex) (i : nat) (s : str) : option match_result :=
  match m r Some (MState i s []) with
  | Some st' =>
      Some (MatchResult i (firstn (pos st' - i) s) (get_cap 1 (caps st')))
  | None =>
      match s with
      | [] => None
      | _ :: tl => search r (S i) tl
      end
  end.

Definition exec (r : regex) (s : str) : option match_result := search r 0 s.

Definition test (r : regex) (s : str) : bool :=
  match exec r s with Some _ => true | None => false end.

End RegExp.

Import RegExp.

(** ** The patterns of [index.ts] *)

Definition marker : str := u "sourceMappingURL".

Definition ws : regex := Star (Chr is_space).
Definition non_space (c : cu) : bool := negb (is_space c).
(** [[\S\s]] *)
Definition any_char (c : cu) : bool := negb (is_space c) || is_space c.
(** [[@#]] *)
Definition at_or_hash (c : cu) : bool := N.eqb c 64 || N.eqb c 35.

(** [(?![\S\s]*sourceMappingURL)] *)
Definition no_later_marker : regex :=
  NegLook (Seq (Star (Chr any_char)) (Lit marker)).

(** [baseRegex], with its final lookahead as a parameter:
    [\s*[@#]\s*sourceMappingURL\s*=\s*], then group 1, which is [[^\s]*],
    then [la]. *)
Definition baseRegex_with (la : regex) : regex :=
  Seq ws (Seq (Chr at_or_hash) (Seq ws (Seq (Lit marker) (Seq ws
    (Seq (Chr (is_char 61)) (Seq ws
      (Seq (Group 1 (Star (Chr non_space))) la))))))).

Definition baseRegex : regex := baseRegex_with no_later_marker.

(** the end of a line comment: [(?:$|\n|\r\n?)] *)
Definition line_end : regex :=
  Alt Eol (Alt (Chr (is_char LF)) (Seq (Chr (is_char CR)) (Opt (Chr (is_char LF))))).

Definition regex1_with (la : regex) : regex :=
  Seq (Lit (u "/*")) (Seq (baseRegex_with la) (Seq ws (Lit (u "*/")))).

Definition regex2_with (la : regex) : regex :=
  Seq (Lit (u "//")) (Seq (baseRegex_with la) line_end).

Definition regex1 : regex := regex1_with no_later_marker.
Definition regex2 : regex := regex2_with no_later_marker.

Definition not_semi_nl (c : cu) : bool := negb (N.eqb c 59 || N.eqb c LF).

(** [/data:[^;\n]+(?:;charset=[^;\n]+)?;base64,(G)/] with group 1, G, being
    [[a-zA-Z0-9+/]+={0,2}] *)
Definition charset_part : regex :=
  Seq (Lit (u ";charset=")) (Plus (Chr not_semi_nl)).

Definition base64_payload : regex :=
  Seq (Plus (Chr is_base64))
      (Opt (Seq (Chr (is_char 61)) (Opt (Chr (is_char 61))))).

Definition regexDataUrl : regex :=
  Seq (Lit (u "data:"))
    (Seq (Plus (Chr not_semi_nl))
      (Seq (Opt charset_part)
        (Seq (Lit (u ";base64,")) (Group 1 base64_payload)))).

(** [/^[a-zA-Z]{2,}:/]: two letters, then letters as long as there are *)
Definition regexUrl : regex :=
  Seq Bol (Seq (Chr is_alpha) (Seq (Chr is_alpha)
    (Seq (Star (Chr is_alpha)) (Chr (is_char 58))))).

Definition FILE_SCHEME : str := u "file:".

(** [inputSource.match(regex1) || inputSource.match(regex2)] *)
Definition find_directive (inputSource : str) : option match_result :=
  match exec regex1 inputSource with
  | Some r => Some r
  | None => exec regex2 inputSource
  end.

(** A directive comment, whatever follows it in the text: the span from
    [s] to [e] has the block form or the line form (the patterns without
    their lookahead). *)
Definition directive_comment (text : str) (s e : nat) : Prop :=
  exists st', pos st' = e /\
    (matches (regex1_with Eps) (MState s (skipn s text) []) st' \/
     matches (regex2_with Eps) (MState s (skipn s text) []) st').

(** [marker] occurs in [text] at index [q] *)
Definition marker_at (text : str) (q : nat) : Prop :=
  exists post, skipn q text = marker ++ post.

Definition marker_atb (text : str) (q : nat) : bool :=
  startsWith marker (skipn q text).

(** [directive_comment], decided by running the matcher up to index [e] *)
Definition ends_at (e : nat) : cont :=
  fun st' => if Nat.eqb (pos st') e then Some st' else None.

Definition directive_commentb (text : str) (s e : nat) : bool :=
  match m (regex1_with Eps) (ends_at e) (MState s (skipn s text) []) with
  | Some _ => true
  | None =>
      match m (regex2_with Eps) (ends_at e) (MState s (skipn s text) []) with
      | Some _ => true
      | None => false
      end
  end.

(** every directive comment of [text] ends at or before index [q] *)
Definition directives_end_by (text : str) (q : nat) : bool :=
  forallb (fun s =>
    forallb (fun e => implb (directive_commentb text s e) (e <=? q))
            (seq 0 (S (length text))))
    (seq 0 (S (length text))).

(** the spans of [text] that are directive comments, in text order *)
Definition directive_spans (text : str) : list (nat * nat) :=
  filter (fun span => directive_commentb text (fst span) (snd span))
         (list_prod (seq 0 (S (length text))) (seq 0 (S (length text)))).

(** [url] begins with two or more letters followed by a colon *)
Definition has_scheme (url : str) : Prop :=
  exists letters tl,
    url = letters ++ 58%N :: tl /\ 2 <= length letters /\
    Forall (fun c => is_alpha c = true) letters.

(** ** Values, exceptions and effects *)

Inductive jsval : Type :=
| JUndefined : jsval
| JNull : jsval
| JString : str -> jsval.

(** An exception of the runtime: its [name] and [message]. *)
Record host_error : Type := mkHostError {
  error_name : str;
  error_message : str
}.

(** An exception is an [Error] made by [index.ts] itself ([new Error(message)])
    or one thrown by the runtime. *)
Inductive exn : Type :=
| JsError : str -> exn
| HostError : host_error -> exn.

(** [String(ex)], Error.prototype.toString *)
Definition exn_toString (e : exn) : str :=
  match e with
  | JsError [] => u "Error"
  | JsError msg => u "Error: " ++ msg
  | HostError (mkHostError [] msg) => msg
  | HostError (mkHostError name []) => name
  | HostError (mkHostError name msg) => name ++ u ": " ++ msg
  end.

Definition exn_message (e : exn) : str :=
  match e with
  | JsError msg => msg
  | HostError e => error_message e
  end.

(** the fields of [RawSourceMap] *)
Record RawSourceMap : Type := mkRawSourceMap {
  version : N;
  file : option str;
  sourceRoot : option str;
  sources : list str;
  names : list str;
  sourcesContent : option (list jsval);
  mappings : str
}.

(** What [JSON.parse] returns for a text that is JSON.  The casts
    [as RawSourceMap] of [readSourceMap] check nothing when the loader runs:
    the value is a source map only when it is an object with an array
    [sources], and it is then taken to have the declared fields.  Any other
    value (the object without members, an index map with [sections] and no
    [sources], [null], a number) comes out of [readSourceMap] all the same,
    and lines 91-92 of [loadSourceMap], which read [sourceMap.sourceRoot] and
    call [sourceMap.sources.map], make the runtime throw the [TypeError]
    that stands here. *)
Inductive JsonValue : Type :=
| SourceMapObject : RawSourceMap -> JsonValue
| NoSourcesArray : host_error -> JsonValue.

Record Options : Type := mkOptions { keepRelativeSources : option bool }.

Definition DEFAULT_OPTIONS : Options := mkOptions (Some false).

(** [Object.assign({}, DEFAULT_OPTIONS, getOptions(this))] *)
Definition assign_options (defaults given : Options) : Options :=
  match keepRelativeSources given with
  | Some b => mkOptions (Some b)
  | None => defaults
  end.

Record SourceAndContent : Type := mkSourceAndContent {
  source : str;
  content : jsval
}.

(** What the loader does to the world: the completed reads of [fs.readFile]
    (with their outcome) and the calls of [this.cacheable],
    [this.addDependency] and [this.emitWarning]. *)
Inductive event : Type :=
| Cacheable : event
| ReadFile : str -> bool -> event
| AddDependency : str -> event
| EmitWarning : exn -> event.

(** The node runtime and the loader context. *)
Record Host : Type := mkHost {
  path_resolve : str -> str -> str;
  path_dirname : str -> str;
  (** [undefined] before node 10 *)
  fileURLToPath : option (str -> host_error + str);
  fs_readFile : str -> host_error + str;
  (** [Buffer.from(s, "base64").toString()] *)
  base64_toString : str -> str;
  JSON_parse : str -> host_error + JsonValue;
  (** whether [this.cacheable] is there *)
  has_cacheable : bool
}.

(** A computation logs events and returns a value or throws. *)
Definition M (A : Type) : Type := list event * (exn + A).

Definition ret {A} (a : A) : M A := ([], inr a).
Definition throw {A} (e : exn) : M A := ([], inl e).
Definition emit (ev : event) : M unit := ([ev], inr tt).
Definition lift {A} (r : exn + A) : M A := ([], r).

Definition bind {A B} (c : M A) (f : A -> M B) : M B :=
  match c with
  | (t, inl e) => (t, inl e)
  | (t, inr a) => let (t', r) := f a in (t ++ t', r)
  end.

(** [try { c } catch (ex) { handler ex }] *)
Definition try_catch {A} (c : M A) (handler : exn -> M A) : M A :=
  match c with
  | (t, inl e) => let (t', r) := handler e in (t ++ t', r)
  | (t, inr a) => (t, inr a)
  end.

Notation "x <- c ;; k" := (bind c (fun x => k))
  (at level 61, c at next level, right associativity).
Notation "c ;;; k" := (bind c (fun _ => k))
  (at level 61, right associativity).

Fixpoint mapM_index {A B} (f : A -> nat -> M B) (i : nat) (l : list A) : M (list B) :=
  match l with
  | [] => ret []
  | a :: tl =>
      b <- f a i ;;
      bs <- mapM_index f (S i) tl ;;
      ret (b :: bs)
  end.

Definition warnings (t : list event) : list exn :=
  flat_map (fun ev => match ev with EmitWarning e => [e] | _ => [] end) t.
Definition dependencies (t : list event) : list str :=
  flat_map (fun ev => match ev with AddDependency p => [p] | _ => [] end) t.
Definition reads (t : list event) : list str :=
  flat_map (fun ev => match ev with ReadFile p _ => [p] | _ => [] end) t.
Definition successful_reads (t : list event) : list str :=
  flat_map (fun ev => match ev with ReadFile p true => [p] | _ => [] end) t.

(** ** The loader *)

Section Loader.

Variable h : Host.

Definition readFile (path : str) : M str :=
  match fs_readFile h path with
  | inl e => ([ReadFile path false], inl (HostError e))
  | inr text => ([ReadFile path true], inr text)
  end.

Definition addDependency (path : str) : M unit := emit (AddDependency path).
Definition emitWarning (e : exn) : M unit := emit (EmitWarning e).

Definition resolveAbsolutePath (context url : str) : exn + str :=
  if test regexUrl url && negb (startsWith FILE_SCHEME url)
  then inl (JsError (u "URL scheme not supported: " ++ url))
  else if startsWith FILE_SCHEME url
  then match fileURLToPath h with
       | None =>
           inl (JsError (u "File URL scheme support requires node 10.x: " ++ url))
       | Some convert =>
           match convert url with
           | inl e => inl (HostError e)
           | inr filepath => inr (path_resolve h context filepath)
           end
       end
  else inr (path_resolve h context url).

(** [match[1]]; the group takes part in every match of the patterns here
    (for the directive patterns, [find_directive_group1] below) *)
Definition group1_of (mr : match_result) : str :=
  match group1 mr with Some g => g | None => [] end.

(** [context] is [this.context] *)
Definition readSourceMap (context url : str) : M (JsonValue * str) :=
  match exec regexDataUrl url with
  | Some dataUrlMatch =>
      let base64SourceMap := group1_of dataUrlMatch in
      match JSON_parse h (base64_toString h base64SourceMap) with
      | inr sourceMap => ret (sourceMap, context)
      | inl ex =>
          let shortenedSourceMap := substr0 50 base64SourceMap in
          throw (JsError (u "Cannot parse inline SourceMap '" ++ shortenedSourceMap
                          ++ u "': " ++ exn_toString (HostError ex)))
      end
  | None =>
      absolutePath <- lift (resolveAbsolutePath context url) ;;
      fileContent <- readFile absolutePath ;;
      addDependency absolutePath ;;;
      match JSON_parse h fileContent with
      | inr sourceMap => ret (sourceMap, path_dirname h absolutePath)
      | inl ex =>
          throw (JsError (u "Cannot parse SourceMap from " ++ url ++ u ": "
                          ++ exn_toString (HostError ex)))
      end
  end.

(** [sourcesContent[sourceIndex]]: [undefined] past the end *)
Definition content_at (sourcesContent : list jsval) (sourceIndex : nat) : jsval :=
  nth sourceIndex sourcesContent JUndefined.

(** The callback of [sources.map] in [loadSourceMap], lines 98-140. *)
Definition loadSource (sourcesContext : str) (sourcesContent : list jsval)
           (source : str) (sourceIndex : nat) : M SourceAndContent :=
  match resolveAbsolutePath sourcesContext source with
  | inl ex =>
      emitWarning (JsError (u "Cannot find source file '" ++ source ++ u "': "
                            ++ exn_toString ex)) ;;;
      ret (mkSourceAndContent source
             match content_at sourcesContent sourceIndex with
             | JNull => JNull
             | v => v
             end)
  | inr absolutePath =>
      match content_at sourcesContent sourceIndex with
      | JString c => ret (mkSourceAndContent absolutePath (JString c))
      | _ =>
          try_catch
            (content <- readFile absolutePath ;;
             addDependency absolutePath ;;;
             ret (mkSourceAndContent absolutePath (JString content)))
            (fun ex =>
               emitWarning (JsError (u "Cannot open source file '" ++ absolutePath
                                     ++ u "': " ++ exn_toString ex)) ;;;
               ret (mkSourceAndContent absolutePath JNull))
      end
  end.

(** [sourceMap.sourceRoot ? sourceMap.sourceRoot + "/" : empty] *)
Definition sourcePrefix_of (sourceMap : RawSourceMap) : str :=
  match sourceRoot sourceMap with
  | None => []
  | Some [] => []
  | Some root => root ++ u "/"
  end.

(** [sourceMap.sourcesContent || []] *)
Definition contents_of (sourceMap : RawSourceMap) : list jsval :=
  match sourcesContent sourceMap with Some l => l | None => [] end.

(** [loadSourceMap] after the map has been read, lines 91-147.  The sources
    are taken in index order; the order in which the reads of different
    sources complete is not part of the model. *)
Definition enrichSourceMap (sourceMap : RawSourceMap) (sourcesContext : str)
           (keep : bool) : M RawSourceMap :=
  let sourcePrefix := sourcePrefix_of sourceMap in
  let prefixed := map (fun s => sourcePrefix ++ s) (sources sourceMap) in
  let contents := contents_of sourceMap in
  results <- mapM_index (loadSource sourcesContext contents) 0 prefixed ;;
  ret (mkRawSourceMap
         (version sourceMap) (file sourceMap)
         None
         (if negb keep then map source results else sources sourceMap)
         (names sourceMap)
         (Some (map content results))
         (mappings sourceMap)).

(** [loadSourceMap]: the value that [readSourceMap] hands over is used as
    a map without a check, so lines 91-92 throw on one without an array
    [sources], before anything is done for a source. *)
Definition loadSourceMap (context sourceMapUrl : str) (keep : bool)
  : M RawSourceMap :=
  read <- readSourceMap context sourceMapUrl ;;
  match fst read with
  | SourceMapObject sourceMap => enrichSourceMap sourceMap (snd read) keep
  | NoSourcesArray typeError => throw (HostError typeError)
  end.

Record LoaderResult : Type := mkLoaderResult {
  res : str;
  map_out : option RawSourceMap
}.

Definition truthy_option (b : option bool) : bool :=
  match b with Some true => true | _ => false end.

(** The loader: [context] is [this.context], [given] is [getOptions(this)],
    the result is what the callback receives. *)
Definition loader (context : str) (given : Options) (rawInputSource : str)
           (rawInputSourceMap : option RawSourceMap) : list event * LoaderResult :=
  match rawInputSource, rawInputSourceMap with
  | [], _ | _, Some _ => ([], mkLoaderResult rawInputSource rawInputSourceMap)
  | inputSource, None =>
      let options := assign_options DEFAULT_OPTIONS given in
      let cacheable := if has_cacheable h then [Cacheable] else [] in
      match find_directive inputSource with
      | None => (cacheable, mkLoaderResult inputSource None)
      | Some mt =>
          match loadSourceMap context (group1_of mt)
                  (truthy_option (keepRelativeSources options)) with
          | (t, inl ex) =>
              (cacheable ++ t ++ [EmitWarning ex], mkLoaderResult inputSource None)
          | (t, inr sourceMap) =>
              (cacheable ++ t,
               mkLoaderResult (replace_first (whole mt) inputSource) (Some sourceMap))
          end
      end
  end.

End Loader.

(** ** A host for examples: a POSIX [path], tables for the rest *)

Module Fixture.

Definition SLASH : cu := 47%N.

Fixpoint split_slash (s : str) (cur : str) : list str :=
  match s with
  | [] => [rev cur]
  | c :: tl =>
      if N.eqb c SLASH then rev cur :: split_slash tl []
      else split_slash tl (c :: cur)
  end.

(** the segments of the normalized path, innermost first *)
Fixpoint norm_segs (segs : list str) (acc : list str) : list str :=
  match segs with
  | [] => acc
  | sg :: rest_segs =>
      if str_eqb sg [] || str_eqb sg (u ".") then norm_segs rest_segs acc
      else if str_eqb sg (u "..") then norm_segs rest_segs (tl acc)
      else norm_segs rest_segs (sg :: acc)
  end.

Definition join_abs (segs_rev : list str) : str :=
  match segs_rev with
  | [] => [SLASH]
  | _ => flat_map (fun sg => SLASH :: sg) (rev segs_rev)
  end.

Definition normalize_abs (p : str) : str :=
  join_abs (norm_segs (split_slash p []) []).

(** [path.resolve(context, p)] on POSIX, for an absolute [context] *)
Definition posix_resolve (context p : str) : str :=
  if startsWith [SLASH] p then normalize_abs p
  else normalize_abs (context ++ [SLASH] ++ p).

(** [path.dirname(p)] for a normalized absolute [p] *)
Definition posix_dirname (p : str) : str :=
  join_abs (tl (norm_segs (split_slash p []) [])).

Fixpoint lookup {A} (key : str) (table : list (str * A)) : option A :=
  match table with
  | [] => None
  | (k, v) :: rest_table => if str_eqb k key then Some v else lookup key rest_table
  end.

Definition enoent (path : str) : host_error :=
  mkHostError (u "Error")
              (u "ENOENT: no such file or directory, open '" ++ path ++ u "'").

Definition unexpected_token : host_error :=
  mkHostError (u "SyntaxError") (u "Unexpected token").

(** [file:///abs/path] without percent escapes *)
Definition file_url_path (url : str) : host_error + str :=
  if startsWith (u "file:///") url then inr (skipn 7 url)
  else inl (mkHostError (u "TypeError") (u "Invalid URL")).

(** what node says when [sources] is missing: [undefined.map] *)
Definition cannot_read_map : host_error :=
  mkHostError (u "TypeError") (u "Cannot read property 'map' of undefined").

Definition host (files : list (str * str)) (decoded : list (str * str))
           (json : list (str * JsonValue)) : Host :=
  mkHost posix_resolve posix_dirname (Some file_url_path)
    (fun path =>
       match lookup path files with Some t => inr t | None => inl (enoent path) end)
    (fun payload =>
       match lookup payload decoded with Some t => t | None => [] end)
    (fun text =>
       match lookup text json with Some v => inr v | None => inl unexpected_token end)
    true.

End Fixture.


(** ** Notions of the specification *)

(** A source fails when its path does not resolve, or when its content is
    not in the map and its file cannot be read. *)
Definition source_fails (h : Host) (sourcesContext : str) (contents : list jsval)
           (source : str) (sourceIndex : nat) : bool :=
  match resolveAbsolutePath h sourcesContext source with
  | inl _ => true
  | inr absolutePath =>
      match content_at contents sourceIndex with
      | JString _ => false
      | _ => match fs_readFile h absolutePath with inl _ => true | inr _ => false end
      end
  end.

(** A trace that registers exactly the files it has read with success, one
    registration for each such read, in the order of the reads. *)
Definition balanced (t : list event) : Prop :=
  dependencies t = successful_reads t.

(** [text] without the [n] code units from index [i] on *)
Definition excise (text : str) (i n : nat) : str :=
  firstn i text ++ skipn (i + n) text.

(** the sources of a map, each with the root and a slash before it *)
Definition root_prefixed (sourceMap : RawSourceMap) : list str :=
  map (fun s => sourcePrefix_of sourceMap ++ s) (sources sourceMap).

Definition is_inline_parse_warning (e : exn) : bool :=
  startsWith (u "Cannot parse inline SourceMap") (exn_message e).

Definition is_cannot_open_warning (e : exn) : bool :=
  startsWith (u "Cannot open") (exn_message e).

(** ** Inputs of the examples *)

Module Examples.

Import Fixture.

Definition fixtures : str := u "/fixtures".

Definition no_files : Host := host [] [] [].

(** a directive, then the marker once more inside a string literal *)
Definition trailing_marker_text : str :=
  u "//# sourceMappingURL=a.map" ++ [LF] ++ u "var s = '# sourceMappingURL=b.map';".

(** A map with a root and one source, and its JSON text. *)
Definition rooted_map : RawSourceMap :=
  mkRawSourceMap 3 (Some (u "bundle.js")) (Some (u "src")) [u "a.ts"] [] None (u "AAAA").

(** [s] between double quotes *)
Definition quoted (s : string) : str := [34%N] ++ u s ++ [34%N].

Definition rooted_json : str :=
  u "{" ++ quoted "version" ++ u ":3,"
    ++ quoted "file" ++ u ":" ++ quoted "bundle.js" ++ u ","
    ++ quoted "sourceRoot" ++ u ":" ++ quoted "src" ++ u ","
    ++ quoted "sources" ++ u ":[" ++ quoted "a.ts" ++ u "],"
    ++ quoted "names" ++ u ":[],"
    ++ quoted "mappings" ++ u ":" ++ quoted "AAAA" ++ u "}".

(** The map file and its source on disk.  The payload [e30=] is the base64
    of [{}], which is JSON and has no [sources]. *)
Definition rooted_host : Host :=
  host [(u "/fixtures/bundle.js.map", rooted_json);
        (u "/fixtures/src/a.ts", u "let a = 1")]
       [(u "e30=", u "{}")]
       [(rooted_json, SourceMapObject rooted_map);
        (u "{}", NoSourcesArray cannot_read_map)].

(** a map file that holds [{}] *)
Definition empty_map_host : Host :=
  host [(u "/fixtures/empty.map", u "{}")]
       [(u "e30=", u "{}")]
       [(u "{}", NoSourcesArray cannot_read_map)].

Definition empty_map_text : str :=
  u "var a = 1;" ++ [LF] ++ u "//# sourceMappingURL=empty.map".

Definition rooted_text : str :=
  u "var a = 1;" ++ [LF] ++ u "//# sourceMappingURL=bundle.js.map".

(** the same directive twice *)
Definition twice_text : str :=
  u "//# sourceMappingURL=bundle.js.map" ++ [LF] ++ u "//# sourceMappingURL=bundle.js.map".

(** a source behind a scheme, no [sourcesContent] *)
Definition remote_map : RawSourceMap :=
  mkRawSourceMap 3 (Some (u "bundle.js")) None [u "http://example.com/a.ts"] []
                 None (u "AAAA").

(** a directive comment, then the marker inside a string literal, then an
    empty comment *)
Definition marker_in_literal_text : str :=
  u "/*# sourceMappingURL=a.map*/s='sourceMappingURL';/**/".

(** two block comments, one right after the other *)
Definition adjacent_text : str :=
  u "/*#sourceMappingURL=a*//*#sourceMappingURL=b*/".

(** the fixture [missing-source-map.js] of the tests *)
Definition missing_map_text : str :=
  u "with SourceMap" ++ [LF] ++ u "//#sourceMappingURL=missing-source-map.map"
    ++ [LF] ++ u "// comment".

(** the fixture [invalid-inline-source-map2.js] of the tests *)
Definition invalid_inline_text : str :=
  u "without SourceMap" ++ [LF]
    ++ u "// @sourceMappingURL=data:application/source-map;base64,invalid/base64="
    ++ [LF] ++ u "// comment".

(** a payload that is not base64 from its first character on *)
Definition corrupt_inline_text : str :=
  u "//# sourceMappingURL=data:application/json;base64,!!!!".

End Examples.

(** ** Further notions *)

(** [marker] occurs somewhere in [s] *)
Definition contains_marker (s : str) : Prop :=
  exists a b, s = a ++ marker ++ b.

Definition contains_markerb (s : str) : bool :=
  existsb (marker_atb s) (seq 0 (S (length s))).

Definition spaces (w : str) : Prop := Forall (fun c => is_space c = true) w.
Definition no_space (w : str) : Prop := Forall (fun c => non_space c = true) w.

(** the source and the content the loader arrives at for one source, as
    functions of the host *)
Definition resolved_source (h : Host) (sourcesContext source : str) : str :=
  match resolveAbsolutePath h sourcesContext source with
  | inr absolutePath => absolutePath
  | inl _ => source
  end.

Definition resolved_content (h : Host) (sourcesContext : str) (contents : list jsval)
           (source : str) (sourceIndex : nat) : jsval :=
  match content_at contents sourceIndex with
  | JString c => JString c
  | held =>
      match resolveAbsolutePath h sourcesContext source with
      | inl _ => held
      | inr absolutePath =>
          match fs_readFile h absolutePath with
          | inr text => JString text
          | inl _ => JNull
          end
      end
  end.

(** the sources of a map that fail, counted *)
Fixpoint count_failing (h : Host) (sourcesContext : str) (contents : list jsval)
         (sources : list str) (i : nat) : nat :=
  match sources with
  | [] => 0
  | s :: tl =>
      (if source_fails h sourcesContext contents s i then 1 else 0)
      + count_failing h sourcesContext contents tl (S i)
  end.

Definition base64_chars (w : str) : Prop := Forall (fun c => is_base64 c = true) w.
Definition mime_chars (w : str) : Prop := Forall (fun c => not_semi_nl c = true) w.

(** what the loader arrives at for the sources from index [i] on *)
Fixpoint resolved_contents (h : Host) (sourcesContext : str) (contents : list jsval)
         (sources : list str) (i : nat) : list jsval :=
  match sources with
  | [] => []
  | s :: tl =>
      resolved_content h sourcesContext contents s i
      :: resolved_contents h sourcesContext contents tl (S i)
  end.

Module MoreExamples.

Import Fixture.

(** the fixture [invalid-source-map.js] of the tests, with a map file that
    is no JSON *)
Definition invalid_map_text : str :=
  u "with SourceMap" ++ [LF] ++ u "//#sourceMappingURL=invalid-source-map.map"
    ++ [LF] ++ u "// comment".

Definition invalid_map_host : Host :=
  host [(u "/fixtures/invalid-source-map.map", u "{version:3,,}")] [] [].

Definition remote_reference_text : str :=
  u "//# sourceMappingURL=http://example.com/bundle.js.map".

(** an inline map: the payload is the base64 of [rooted_json] *)
Definition inline_payload : str :=
  u "eyJ2ZXJzaW9uIjozLCJmaWxlIjoiYnVuZGxlLmpzIiwic291cmNlUm9vdCI6InNyYyIsInNvdXJjZXMiOlsiYS50cyJdLCJuYW1lcyI6W10sIm1hcHBpbmdzIjoiQUFBQSJ9".

Definition inline_reference : str := u "data:application/json;base64," ++ inline_payload.

Definition inline_text : str :=
  u "var a = 1;" ++ [LF] ++ u "//# sourceMappingURL=" ++ inline_reference.

Definition inline_host : Host :=
  host [(u "/fixtures/src/a.ts", u "let a = 1")]
       [(inline_payload, Examples.rooted_json); (u "e30=", u "{}")]
       [(Examples.rooted_json, SourceMapObject Examples.rooted_map);
        (u "{}", NoSourcesArray cannot_read_map)].

(** an inline map whose payload decodes to [{}] *)
Definition empty_inline_text : str :=
  u "var a = 1;" ++ [LF] ++ u "//# sourceMappingURL=data:application/json;base64,e30=".

(** a map with two sources: the first with its content, the second without
    and not on disk *)
Definition two_sources_map : RawSourceMap :=
  mkRawSourceMap 3 (Some (u "bundle.js")) None [u "a.ts"; u "b.ts"] []
                 (Some [JString (u "let a = 1")]) (u "AAAA").

End MoreExamples.

(** [*/] occurs in [s] *)
Definition contains_close (s : str) : Prop :=
  exists a b, s = a ++ u "*/" ++ b.

Definition contains_closeb (s : str) : bool :=
  existsb (fun q => startsWith (u "*/") (skipn q s)) (seq 0 (S (length s))).

(** * Properties *)

Unset Implicit Arguments.

(** ** Strings *)

Lemma str_eqb_eq a b : str_eqb a b = true <-> a = b.
Proof.
  unfold str_eqb. destruct (list_eq_dec N.eq_dec a b); split; congruence.
Qed.

Lemma startsWith_spec p s : startsWith p s = true <-> exists t, s = p ++ t.
Proof.
  revert s. induction p as [|a p IH]; intros s; simpl.
  - split; eauto.
  - destruct s as [|b s].
    + split; [discriminate | intros [t H]; discriminate].
    + rewrite andb_true_iff, N.eqb_eq, IH. split.
      * intros [-> [t ->]]. eauto.
      * intros [t H]. injection H as -> ->. eauto.
Qed.

Lemma skipn_consumed (text w tl : str) (i : nat) :
  skipn i text = w ++ tl -> skipn (i + length w) text = tl.
Proof.
  intros E. rewrite Nat.add_comm, <- skipn_skipn, E.
  rewrite skipn_app, Nat.sub_diag, skipn_all. reflexivity.
Qed.

(** When the matched text does not occur in the input before the match,
    [replace] removes the matched span. *)
Lemma replace_first_excise pat : forall i text,
  (forall j, j < i -> startsWith pat (skipn j text) = false) ->
  startsWith pat (skipn i text) = true ->
  replace_first pat text = excise text i (length pat).
Proof.
  induction i as [|i IH]; intros text Hbefore Hat.
  - simpl in Hat. unfold excise. simpl.
    destruct text as [|c tl]; simpl; rewrite Hat; reflexivity.
  - pose proof (Hbefore 0 ltac:(lia)) as H0. simpl in H0.
    destruct text as [|c tl].
    + simpl in Hat. congruence.
    + simpl. rewrite H0. unfold excise. simpl. f_equal.
      apply IH.
      * intros j Hj. exact (Hbefore (S j) ltac:(lia)).
      * exact Hat.
Qed.

(** ** The matcher against the relation [matches] *)

Module RegExpFacts.

Lemma star_loop_sound (ma : cont -> mstate -> option mstate)
      (R : mstate -> mstate -> Prop) :
  (forall k st out, ma k st = Some out -> exists st', R st st' /\ k st' = Some out) ->
  forall fuel k st out,
    star_loop ma fuel k st = Some out ->
    exists st', star_rel R st st' /\ k st' = Some out.
Proof.
  intros Hma. induction fuel as [|f IH]; intros k st out H; simpl in H.
  - exists st. split; [constructor | exact H].
  - destruct (ma _ st) as [x|] eqn:E.
    + injection H as <-. apply Hma in E as (mid & HR & Hk).
      destruct (length (rest mid) <? length (rest st)) eqn:L; [|discriminate].
      apply IH in Hk as (st' & Hs & Hk).
      exists st'. split; [|exact Hk].
      eapply star_step; eauto. now apply Nat.ltb_lt.
    + exists st. split; [constructor | exact H].
Qed.

Lemma star_loop_complete (ma : cont -> mstate -> option mstate)
      (R : mstate -> mstate -> Prop) :
  (forall k st st' out, R st st' -> k st' = Some out ->
                        exists out', ma k st = Some out') ->
  forall st st', star_rel R st st' ->
  forall fuel k out, length (rest st) < fuel -> k st' = Some out ->
                     exists out', star_loop ma fuel k st = Some out'.
Proof.
  intros Hma st st' Hs. induction Hs as [st | st mid st' HR Hlt Hs IH];
    intros fuel k out Hfuel Hk.
  - destruct fuel as [|f]; [lia|]. simpl.
    destruct (ma _ st); eauto.
  - destruct fuel as [|f]; [lia|]. simpl.
    destruct (ma _ st) as [x|] eqn:E; [eauto|].
    exfalso.
    destruct (IH f k out ltac:(lia) Hk) as [out' Hout'].
    destruct (Hma (fun st'0 => if length (rest st'0) <? length (rest st)
                               then star_loop ma f k st'0 else None)
                  st mid out' HR) as [y Hy].
    + apply Nat.ltb_lt in Hlt. now rewrite Hlt.
    + congruence.
Qed.

(** Soundness and completeness, together: the lookahead needs both. *)
Lemma m_spec (r : regex) :
  (forall k st out, m r k st = Some out ->
                    exists st', matches r st st' /\ k st' = Some out) /\
  (forall k st st' out, matches r st st' -> k st' = Some out ->
                        exists out', m r k st = Some out').
Proof.
  induction r as [ | p | a [Sa Ca] b [Sb Cb] | a [Sa Ca] b [Sb Cb]
                 | a [Sa Ca] | n a [Sa Ca] | a [Sa Ca] | | ]; simpl.
  - split.
    + intros k st out H. eauto.
    + intros k st st' out -> H. eauto.
  - split.
    + intros k st out H. destruct (rest st) as [|c tl] eqn:E; [discriminate|].
      destruct (p c) eqn:Ep; [|discriminate].
      eexists. split; [|exact H]. exists c, tl. auto.
    + intros k st st' out (c & tl & E & Ep & ->) H. rewrite E, Ep. eauto.
  - split.
    + intros k st out H. apply Sa in H as (mid & Ha & H).
      apply Sb in H as (st' & Hb & H). eauto.
    + intros k st st' out (mid & Ha & Hb) H.
      destruct (Cb k mid st' out Hb H) as [o Ho].
      exact (Ca (m b k) st mid o Ha Ho).
  - split.
    + intros k st out H. destruct (m a k st) as [x|] eqn:E.
      * injection H as <-. apply Sa in E as (st' & Ha & E). eauto.
      * apply Sb in H as (st' & Hb & H). eauto.
    + intros k st st' out [Ha | Hb] H.
      * destruct (Ca k st st' out Ha H) as [o Ho]. rewrite Ho. eauto.
      * destruct (m a k st); eauto.
  - split.
    + intros k st out H.
      exact (@star_loop_sound (m a) (matches a) Sa (S (length (rest st))) k st out H).
    + intros k st st' out Hs H.
      exact (@star_loop_complete (m a) (matches a) Ca st st' Hs
               (S (length (rest st))) k out (Nat.lt_succ_diag_r _) H).
  - split.
    + intros k st out H. apply Sa in H as (mid & Ha & H). eauto.
    + intros k st st' out (mid & Ha & ->) H.
      eapply Ca; eauto.
  - split.
    + intros k st out H. destruct (m a Some st) as [x|] eqn:E; [discriminate|].
      exists st. split; [|exact H]. split; [reflexivity|].
      intros x Hx. destruct (Ca Some st x x Hx eq_refl) as [o Ho]. congruence.
    + intros k st st' out [-> Hno] H.
      destruct (m a Some st) as [x|] eqn:E; [|eauto].
      apply Sa in E as (y & Hy & _). exfalso. eapply Hno; eauto.
  - split.
    + intros k st out H. destruct (Nat.eqb (pos st) 0) eqn:E; [|discriminate].
      apply Nat.eqb_eq in E. eauto.
    + intros k st st' out [-> E] H. rewrite E. simpl. eauto.
  - split.
    + intros k st out H. destruct (rest st) eqn:E; [|discriminate]. eauto.
    + intros k st st' out [-> E] H. rewrite E. eauto.
Qed.

Lemma m_sound r k st out :
  m r k st = Some out -> exists st', matches r st st' /\ k st' = Some out.
Proof. apply m_spec. Qed.

Lemma m_complete r k st st' out :
  matches r st st' -> k st' = Some out -> exists out', m r k st = Some out'.
Proof. apply m_spec. Qed.

(** A match consumes a prefix of the input and advances the index by its
    length. *)
Lemma matches_consumes r : forall st st',
  matches r st st' ->
  exists w, rest st = w ++ rest st' /\ pos st' = pos st + length w.
Proof.
  induction r as [ | p | a IHa b IHb | a IHa b IHb | a IHa | n a IHa | a IHa | | ];
    simpl; intros st st' H.
  - subst. exists []. split; [reflexivity | simpl; lia].
  - destruct H as (c & tl & E & _ & ->). exists [c]. simpl. split; [exact E | lia].
  - destruct H as (mid & Ha & Hb).
    apply IHa in Ha as (w1 & E1 & P1). apply IHb in Hb as (w2 & E2 & P2).
    exists (w1 ++ w2). rewrite <- app_assoc, <- E2, length_app. split; [exact E1 | lia].
  - destruct H as [H | H]; auto.
  - induction H as [st | st mid st' HR Hlt Hs IH].
    + exists []. split; [reflexivity | simpl; lia].
    + apply IHa in HR as (w1 & E1 & P1). destruct IH as (w2 & E2 & P2).
      exists (w1 ++ w2). rewrite <- app_assoc, <- E2, length_app. split; [exact E1 | lia].
  - destruct H as (mid & Ha & ->). simpl. auto.
  - destruct H as [-> _]. exists []. split; [reflexivity | simpl; lia].
  - destruct H as [-> _]. exists []. split; [reflexivity | simpl; lia].
  - destruct H as [-> _]. exists []. split; [reflexivity | simpl; lia].
Qed.

(** Outside a group the captures stay as they are. *)
Lemma group_free_caps r : forall st st',
  group_free r = true -> matches r st st' -> caps st' = caps st.
Proof.
  induction r as [ | p | a IHa b IHb | a IHa b IHb | a IHa | n a IHa | a IHa | | ];
    simpl; intros st st' Hg H.
  - now subst.
  - destruct H as (c & tl & _ & _ & ->). reflexivity.
  - apply andb_true_iff in Hg as [Ha Hb]. destruct H as (mid & H1 & H2).
    rewrite (IHb _ _ Hb H2). exact (IHa _ _ Ha H1).
  - apply andb_true_iff in Hg as [Ha Hb]. destruct H as [H | H]; auto.
  - induction H as [st | st mid st' HR Hlt Hs IH]; [reflexivity|].
    rewrite IH. exact (IHa _ _ Hg HR).
  - discriminate.
  - now destruct H as [-> _].
  - now destruct H as [-> _].
  - now destruct H as [-> _].
Qed.

(** [search] returns the leftmost index at which the pattern matches. *)
Lemma search_sound r : forall s i mr,
  search r i s = Some mr ->
  exists j st',
    j <= length s /\ index mr = i + j /\
    matches r (MState (i + j) (skipn j s) []) st' /\
    whole mr = firstn (pos st' - (i + j)) (skipn j s) /\
    group1 mr = get_cap 1 (caps st').
Proof.
  induction s as [|c tl IH]; intros i mr H; simpl in H.
  - destruct (m r Some (MState i [] [])) as [st'|] eqn:E; [|discriminate].
    injection H as <-. apply m_sound in E as (x & Hx & [= ->]).
    exists 0, st'. simpl. rewrite Nat.add_0_r. auto.
  - destruct (m r Some (MState i (c :: tl) [])) as [st'|] eqn:E.
    + injection H as <-. apply m_sound in E as (x & Hx & [= ->]).
      exists 0, st'. simpl. rewrite Nat.add_0_r. repeat split; auto. lia.
    + apply IH in H as (j & st' & Hj & Hi & Hm & Hw & Hg).
      exists (S j), st'. simpl. rewrite <- Nat.add_succ_comm.
      repeat split; auto. lia.
Qed.

Lemma search_none r : forall s i,
  search r i s = None ->
  forall j x, j <= length s -> ~ matches r (MState (i + j) (skipn j s) []) x.
Proof.
  induction s as [|c tl IH]; intros i H j x Hj Hm; simpl in H.
  - destruct (m r Some (MState i [] [])) eqn:E; [discriminate|].
    simpl in Hj. assert (j = 0) as -> by lia. simpl in Hm. rewrite Nat.add_0_r in Hm.
    destruct (m_complete r Some _ _ _ Hm eq_refl). congruence.
  - destruct (m r Some (MState i (c :: tl) [])) eqn:E; [discriminate|].
    destruct j as [|j].
    + simpl in Hm. rewrite Nat.add_0_r in Hm.
      destruct (m_complete r Some _ _ _ Hm eq_refl). congruence.
    + simpl in Hm, Hj. rewrite <- Nat.add_succ_comm in Hm.
      exact (IH (S i) H j x ltac:(lia) Hm).
Qed.

Lemma exec_sound r s mr :
  exec r s = Some mr ->
  exists st',
    index mr <= length s /\
    matches r (MState (index mr) (skipn (index mr) s) []) st' /\
    whole mr = firstn (pos st' - index mr) (skipn (index mr) s) /\
    group1 mr = get_cap 1 (caps st').
Proof.
  intros H. apply search_sound in H as (j & st' & Hj & Hi & Hm & Hw & Hg).
  simpl in *. subst j. eauto.
Qed.

Lemma exec_complete r s i x :
  i <= length s -> matches r (MState i (skipn i s) []) x ->
  exists mr, exec r s = Some mr.
Proof.
  intros Hi Hm. destruct (exec r s) as [mr|] eqn:E; [eauto|].
  exfalso. exact (search_none r s 0 E i x Hi Hm).
Qed.

(** A literal consumes exactly itself. *)
Lemma matches_Lit s : forall st st',
  matches (Lit s) st st' <->
  exists tl, rest st = s ++ tl /\ st' = MState (pos st + length s) tl (caps st).
Proof.
  induction s as [|c s IH]; intros st st'; simpl.
  - split.
    + intros ->. exists (rest st). rewrite Nat.add_0_r. now destruct st.
    + intros (tl & E & ->). rewrite Nat.add_0_r. destruct st; simpl in *. now subst.
  - split.
    + intros (mid & (c' & tl & E & Ec & ->) & H).
      apply IH in H as (tl' & E' & ->). simpl in *.
      apply N.eqb_eq in Ec. subst c' tl.
      exists tl'. split; [exact E|]. f_equal. lia.
    + intros (tl & E & ->).
      exists (MState (S (pos st)) (s ++ tl) (caps st)). split.
      * exists c, (s ++ tl). repeat split; auto. apply N.eqb_refl.
      * apply IH. exists tl. simpl. split; [reflexivity|]. f_equal. lia.
Qed.

(** A starred character class consumes a run of characters of the class. *)
Lemma star_Chr p : forall st st',
  star_rel (matches (Chr p)) st st' <->
  exists w, Forall (fun c => p c = true) w /\ rest st = w ++ rest st' /\
            st' = MState (pos st + length w) (rest st') (caps st).
Proof.
  intros st st'. split.
  - induction 1 as [st | st mid st' HR Hlt Hs IH].
    + exists []. simpl. rewrite Nat.add_0_r. repeat split; auto. now destruct st.
    + destruct HR as (c & tl & E & Ec & ->). simpl in *.
      destruct IH as (w & Hw & E' & Hst). simpl in *.
      exists (c :: w). simpl. repeat split.
      * constructor; auto.
      * rewrite E, E'. reflexivity.
      * rewrite Hst. f_equal. lia.
  - intros (w & Hw & E & ->). revert st E.
    induction w as [|c w IH]; intros st E; simpl in *.
    + rewrite Nat.add_0_r. rewrite <- E. destruct st; constructor.
    + inversion Hw as [|? ? Hc Hw']; subst.
      eapply star_step with (mid := MState (S (pos st)) (w ++ rest st') (caps st)).
      * exists c, (w ++ rest st'). auto.
      * simpl. rewrite E. simpl. lia.
      * specialize (IH Hw' (MState (S (pos st)) (w ++ rest st') (caps st)) eq_refl).
        simpl in IH. replace (pos st + S (length w)) with (S (pos st) + length w) by lia.
        exact IH.
Qed.

End RegExpFacts.

Import RegExpFacts.

(** ** The directive patterns *)

Lemma any_char_true c : any_char c = true.
Proof. unfold any_char. now destruct (is_space c). Qed.

Lemma later_marker_matches st pre post :
  rest st = pre ++ marker ++ post ->
  exists x, matches (Seq (Star (Chr any_char)) (Lit marker)) st x.
Proof.
  intros E.
  exists (MState (pos st + length pre + length marker) post (caps st)).
  exists (MState (pos st + length pre) (marker ++ post) (caps st)). split.
  - apply star_Chr. exists pre. simpl. repeat split; auto.
    apply Forall_forall. intros c _. apply any_char_true.
  - apply matches_Lit. exists post. auto.
Qed.

(** The lookahead of [baseRegex] holds only where no marker follows. *)
Lemma no_later_marker_elim st st' :
  matches no_later_marker st st' ->
  st' = st /\ forall pre post, rest st <> pre ++ marker ++ post.
Proof.
  intros [-> Hno]. split; [reflexivity|].
  intros pre post E. destruct (later_marker_matches st pre post E) as [x Hx].
  exact (Hno x Hx).
Qed.

Lemma baseRegex_with_split la st st' :
  matches (baseRegex_with la) st st' <->
  exists p, matches (baseRegex_with Eps) st p /\ matches la p st'.
Proof.
  unfold baseRegex_with. split.
  - intros (s1 & H1 & s2 & H2 & s3 & H3 & s4 & H4 & s5 & H5 & s6 & H6 & s7 & H7
            & s8 & H8 & H9).
    exists s8. split; [|exact H9].
    exists s1. split; [exact H1|]. exists s2. split; [exact H2|].
    exists s3. split; [exact H3|]. exists s4. split; [exact H4|].
    exists s5. split; [exact H5|]. exists s6. split; [exact H6|].
    exists s7. split; [exact H7|]. exists s8. split; [exact H8|]. reflexivity.
  - intros (p & (s1 & H1 & s2 & H2 & s3 & H3 & s4 & H4 & s5 & H5 & s6 & H6 & s7 & H7
                 & s8 & H8 & H9) & Hla).
    simpl in H9. subst p.
    exists s1. split; [exact H1|]. exists s2. split; [exact H2|].
    exists s3. split; [exact H3|]. exists s4. split; [exact H4|].
    exists s5. split; [exact H5|]. exists s6. split; [exact H6|].
    exists s7. split; [exact H7|]. exists s8. split; [exact H8|]. exact Hla.
Qed.

(** A comment accepted with the lookahead is a directive comment, and no
    marker of the text starts at or after the end of its reference. *)
Lemma directive_no_later_marker opener closer text i st' :
  matches (Seq (Lit opener) (Seq (baseRegex_with no_later_marker) closer))
          (MState i (skipn i text) []) st' ->
  matches (Seq (Lit opener) (Seq (baseRegex_with Eps) closer))
          (MState i (skipn i text) []) st' /\
  i <= pos st' /\
  exists p, p <= pos st' /\ forall q, marker_at text q -> q < p.
Proof.
  intros (s1 & H1 & s2 & H2 & H3).
  apply baseRegex_with_split in H2 as (p & Hb & Hla).
  apply no_later_marker_elim in Hla as [-> Hno].
  split; [|split].
  - exists s1. split; [exact H1|]. exists p. split; [|exact H3].
    apply baseRegex_with_split. exists p. split; [exact Hb | reflexivity].
  - apply matches_consumes in H1 as (w1 & E1 & P1).
    apply matches_consumes in Hb as (w2 & E2 & P2).
    apply matches_consumes in H3 as (w3 & E3 & P3). simpl in *. lia.
  - apply matches_consumes in H1 as (w1 & E1 & P1).
    apply matches_consumes in Hb as (w2 & E2 & P2).
    apply matches_consumes in H3 as (w3 & E3 & P3). simpl in E1, P1.
    exists (pos p). split; [lia|].
    intros q [post Hq].
    destruct (Nat.lt_ge_cases q (pos p)) as [Hlt | Hge]; [exact Hlt|].
    exfalso.
    assert (Hp : skipn (pos p) text = rest p).
    { rewrite E2, app_assoc in E1. apply skipn_consumed in E1.
      rewrite length_app in E1. rewrite <- E1. f_equal. lia. }
    apply (Hno (firstn (q - pos p) (rest p)) post).
    rewrite <- Hq. replace q with ((q - pos p) + pos p) at 2 by lia.
    rewrite <- skipn_skipn, Hp. symmetry. apply firstn_skipn.
Qed.

(** What [find_directive] returns is a directive comment of the text, from
    [index] to some end [e], and no marker starts at or after [e]. *)
Lemma find_directive_sound text mr :
  find_directive text = Some mr ->
  exists e,
    directive_comment text (index mr) e /\ index mr <= e /\
    whole mr = firstn (e - index mr) (skipn (index mr) text) /\
    forall q, marker_at text q -> q < e.
Proof.
  unfold find_directive. intros H.
  destruct (exec regex1 text) as [r1|] eqn:E1.
  - injection H as <-. apply exec_sound in E1 as (st' & Hi & Hm & Hw & _).
    apply directive_no_later_marker in Hm as (Hm & Hle & p & Hp & Hq).
    exists (pos st'). repeat split; auto.
    + exists st'. auto.
    + intros q Hmk. specialize (Hq q Hmk). lia.
  - apply exec_sound in H as (st' & Hi & Hm & Hw & _).
    apply directive_no_later_marker in Hm as (Hm & Hle & p & Hp & Hq).
    exists (pos st'). repeat split; auto.
    + exists st'. auto.
    + intros q Hmk. specialize (Hq q Hmk). lia.
Qed.

(** [match[1]] is a string whenever a directive is found. *)
Lemma find_directive_group1 text mr :
  find_directive text = Some mr -> exists ref, group1 mr = Some ref.
Proof.
  assert (Hdir : forall opener closer st st',
             group_free closer = true ->
             matches (Seq (Lit opener) (Seq baseRegex closer)) st st' ->
             exists ref, get_cap 1 (caps st') = Some ref).
  { intros opener closer st st' Hg (s0 & _ & sb & Hb & Hc).
    rewrite (group_free_caps _ _ _ Hg Hc).
    destruct Hb as (s1 & _ & s2 & _ & s3 & _ & s4 & _ & s5 & _ & s6 & _ & s7 & _
                    & s8 & (mid & _ & ->) & [-> _]).
    simpl. eauto. }
  unfold find_directive. intros H.
  destruct (exec regex1 text) as [r1|] eqn:E1.
  - injection H as <-. apply exec_sound in E1 as (st' & _ & Hm & _ & ->).
    exact (Hdir (u "/*") (Seq ws (Lit (u "*/"))) _ _ eq_refl Hm).
  - apply exec_sound in H as (st' & _ & Hm & _ & ->).
    exact (Hdir (u "//") line_end _ _ eq_refl Hm).
Qed.

Lemma find_directive_nonempty text mt : find_directive text = Some mt -> text <> [].
Proof. intros H ->. vm_compute in H. discriminate. Qed.

Lemma opened_bounds opener r text s st' :
  matches (Seq (Lit opener) r) (MState s (skipn s text) []) st' ->
  opener <> [] ->
  s <= length text /\ pos st' <= length text.
Proof.
  intros (s1 & H1 & H2) Hne.
  apply matches_Lit in H1 as (tl & E1 & ->).
  apply matches_consumes in H2 as (w2 & E2 & P2). simpl in E1, E2, P2.
  assert (Hlen : length (skipn s text) = length opener + (length w2 + length (rest st'))).
  { rewrite E1, E2, !length_app. reflexivity. }
  rewrite length_skipn in Hlen.
  destruct opener as [|c o]; [congruence|]. simpl in Hlen, P2. lia.
Qed.

Lemma directive_comment_bounds text s e :
  directive_comment text s e -> s <= length text /\ e <= length text.
Proof.
  intros (st' & <- & [H | H]); eapply opened_bounds; try exact H; discriminate.
Qed.

Lemma directive_commentP text s e :
  directive_comment text s e -> directive_commentb text s e = true.
Proof.
  intros (st' & He & H). unfold directive_commentb.
  assert (Hk : ends_at e st' = Some st').
  { unfold ends_at. rewrite He, Nat.eqb_refl. reflexivity. }
  destruct H as [H | H].
  - destruct (m_complete _ _ _ _ _ H Hk) as [o ->]. reflexivity.
  - destruct (m (regex1_with Eps) _ _); [reflexivity|].
    destruct (m_complete _ _ _ _ _ H Hk) as [o ->]. reflexivity.
Qed.

Lemma directive_commentb_sound text s e :
  directive_commentb text s e = true -> directive_comment text s e.
Proof.
  unfold directive_commentb. intros H.
  destruct (m (regex1_with Eps) (ends_at e) _) as [o|] eqn:E1.
  - apply m_sound in E1 as (st' & Hm & Hk). exists st'. split; [|auto].
    unfold ends_at in Hk. destruct (Nat.eqb (pos st') e) eqn:Ee; [|discriminate].
    now apply Nat.eqb_eq.
  - destruct (m (regex2_with Eps) (ends_at e) _) as [o|] eqn:E2; [|discriminate].
    apply m_sound in E2 as (st' & Hm & Hk). exists st'. split; [|auto].
    unfold ends_at in Hk. destruct (Nat.eqb (pos st') e) eqn:Ee; [|discriminate].
    now apply Nat.eqb_eq.
Qed.

Lemma directives_end_byP text q :
  directives_end_by text q = true ->
  forall s e, directive_comment text s e -> e <= q.
Proof.
  unfold directives_end_by. intros H s e Hd.
  destruct (directive_comment_bounds _ _ _ Hd) as [Hs He].
  rewrite forallb_forall in H.
  assert (Hin : forall n, n <= length text -> In n (seq 0 (S (length text)))).
  { intros n Hn. apply in_seq. lia. }
  specialize (H s (Hin s Hs)). rewrite forallb_forall in H.
  specialize (H e (Hin e He)). rewrite (directive_commentP _ _ _ Hd) in H.
  simpl in H. now apply Nat.leb_le.
Qed.

Lemma marker_atP text q : marker_atb text q = true <-> marker_at text q.
Proof. unfold marker_atb, marker_at. apply startsWith_spec. Qed.

(** ** Scanning for the directive *)

Lemma directive_spans_spec text s e :
  directive_comment text s e -> In (s, e) (directive_spans text).
Proof.
  intros Hd. destruct (directive_comment_bounds _ _ _ Hd) as [Hs He].
  unfold directive_spans. apply filter_In. split.
  - apply in_prod; apply in_seq; lia.
  - exact (directive_commentP _ _ _ Hd).
Qed.

(** C10: a directive comment, then the marker inside a string literal, then
    an empty comment.  The comment from 0 to 28 is the one well-formed
    directive comment of the text and the marker at 31 stands after it;
    still [regex1] matches, from index 0 to the end of the text: the
    reference runs over the end of the comment and over the marker of the
    literal, up to the empty comment, and the lookahead finds no marker
    after it.  The loader then looks for a file of that name and warns.  No
    span of the form of a directive starts anywhere but at index 0. *)
Theorem marker_in_literal_matched :
  firstn 28 Examples.marker_in_literal_text = u "/*# sourceMappingURL=a.map*/" /\
  skipn 28 Examples.marker_in_literal_text = u "s='sourceMappingURL';/**/" /\
  directive_comment Examples.marker_in_literal_text 0 28 /\
  marker_at Examples.marker_in_literal_text 31 /\
  (forall s e, directive_comment Examples.marker_in_literal_text s e ->
     s = 0 /\ (e = 28 \/ e = 53)) /\
  exec regex1 Examples.marker_in_literal_text =
    Some (MatchResult 0 Examples.marker_in_literal_text
            (Some (u "a.map*/s='sourceMappingURL';/*"))) /\
  loader Examples.no_files Examples.fixtures (mkOptions None)
         Examples.marker_in_literal_text None =
    ([Cacheable;
      ReadFile (u "/fixtures/a.map*/s='sourceMappingURL';/*") false;
      EmitWarning (HostError (Fixture.enoent (u "/fixtures/a.map*/s='sourceMappingURL';/*")))],
     mkLoaderResult Examples.marker_in_literal_text None).
Proof.
  split; [reflexivity|]. split; [reflexivity|].
  split; [apply directive_commentb_sound; vm_compute; reflexivity|].
  split; [apply marker_atP; vm_compute; reflexivity|].
  split; [|split; vm_compute; reflexivity].
  intros s e Hd. apply directive_spans_spec in Hd.
  assert (Hspans : directive_spans Examples.marker_in_literal_text = [(0, 28); (0, 53)])
    by (vm_compute; reflexivity).
  rewrite Hspans in Hd. destruct Hd as [[= <- <-] | [[= <- <-] | []]]; auto.
Qed.

(** C3: two block comments, each a directive, the second right after the
    first.  The match starts at the first comment and runs to the end of the
    second; the reference is neither [a] nor [b].  On the second comment
    alone the reference is [b]. *)
Theorem adjacent_comments_first_matched :
  directive_comment Examples.adjacent_text 0 23 /\
  directive_comment Examples.adjacent_text 23 46 /\
  find_directive Examples.adjacent_text =
    Some (MatchResult 0 Examples.adjacent_text (Some (u "a*//*#sourceMappingURL=b"))) /\
  find_directive (skipn 23 Examples.adjacent_text) =
    Some (MatchResult 0 (u "/*#sourceMappingURL=b*/") (Some (u "b"))).
Proof.
  split; [|split; [|split]].
  - apply directive_commentb_sound. vm_compute. reflexivity.
  - apply directive_commentb_sound. vm_compute. reflexivity.
  - vm_compute. reflexivity.
  - vm_compute. reflexivity.
Qed.

(** ** Resolving a path *)

(** [regexUrl] accepts exactly the strings that begin with two or more
    letters followed by a colon. *)
Lemma regexUrl_test_spec url : test regexUrl url = true <-> has_scheme url.
Proof.
  unfold test. split.
  - destruct (exec regexUrl url) as [mr|] eqn:E; [intros _ | discriminate].
    apply exec_sound in E as (st' & _ & Hm & _).
    destruct Hm as (s0 & [-> P0] & s1 & (c1 & tl1 & E1 & A1 & ->)
                    & s2 & (c2 & tl2 & E2 & A2 & ->) & s3 & Hs
                    & (c3 & tl3 & E3 & A3 & ->)).
    simpl in P0, E1, E2. rewrite P0 in E1. simpl in E1.
    apply star_Chr in Hs as (w & Hw & Ew & _). simpl in Ew.
    apply N.eqb_eq in A3. subst c3.
    exists (c1 :: c2 :: w), tl3. repeat split.
    + rewrite E1, E2, Ew, E3. reflexivity.
    + simpl. lia.
    + repeat constructor; auto.
  - intros (letters & tl & -> & Hlen & Hall).
    destruct letters as [|c1 [|c2 w]]; simpl in Hlen; try lia.
    inversion Hall as [|? ? A1 Hall']; subst.
    inversion Hall' as [|? ? A2 Hw]; subst.
    destruct (exec_complete regexUrl ((c1 :: c2 :: w) ++ 58%N :: tl) 0
                (MState (S (2 + length w)) tl [])) as [mr ->]; [simpl; lia | | reflexivity].
    simpl.
    exists (MState 0 (c1 :: c2 :: w ++ 58%N :: tl) []). split; [split; reflexivity|].
    exists (MState 1 (c2 :: w ++ 58%N :: tl) []).
    split; [exists c1, (c2 :: w ++ 58%N :: tl); auto|].
    exists (MState 2 (w ++ 58%N :: tl) []).
    split; [exists c2, (w ++ 58%N :: tl); auto|].
    exists (MState (2 + length w) (58%N :: tl) []). split.
    + apply star_Chr. exists w. auto.
    + exists 58%N, tl. auto.
Qed.

Lemma file_scheme_has_scheme url :
  startsWith FILE_SCHEME url = true -> has_scheme url.
Proof.
  intros H. apply startsWith_spec in H as [t ->].
  exists (u "file"), t. repeat split.
  - simpl. lia.
  - repeat constructor.
Qed.

Lemma drive_letter_no_scheme c tl : ~ has_scheme (c :: 58%N :: tl).
Proof.
  intros (letters & tl' & E & Hlen & Hall).
  destruct letters as [|c1 [|c2 w]]; simpl in Hlen; try lia.
  simpl in E. injection E as E1 E2 E3. subst c2.
  inversion Hall as [|? ? _ Hall']; subst.
  inversion Hall' as [|? ? A2 _]; subst. discriminate.
Qed.

(** C6: [resolveAbsolutePath] throws its unsupported-scheme error exactly
    when the reference begins with two or more letters followed by a colon
    and does not start with [file:]; a reference that starts with one
    character and a colon (a Windows drive) has no scheme; a reference
    without scheme is handed to [path.resolve] with the base directory, and
    so is the path of a [file:] reference. *)
Theorem resolveAbsolutePath_scheme (h : Host) (context url : str) :
  (resolveAbsolutePath h context url
     = inl (JsError (u "URL scheme not supported: " ++ url))
   <-> has_scheme url /\ startsWith FILE_SCHEME url = false) /\
  (forall c tl, ~ has_scheme (c :: 58%N :: tl)) /\
  (~ has_scheme url ->
   resolveAbsolutePath h context url = inr (path_resolve h context url)) /\
  (forall convert filepath,
     startsWith FILE_SCHEME url = true ->
     fileURLToPath h = Some convert -> convert url = inr filepath ->
     resolveAbsolutePath h context url = inr (path_resolve h context filepath)).
Proof.
  pose proof (regexUrl_test_spec url) as Hspec.
  unfold resolveAbsolutePath. split; [split | split; [|split]].
  - destruct (test regexUrl url) eqn:T; destruct (startsWith FILE_SCHEME url) eqn:F;
      simpl; intros H; try (split; [apply Hspec; reflexivity | reflexivity]);
      exfalso.
    + destruct (fileURLToPath h) as [convert|].
      * destruct (convert url); discriminate.
      * injection H; intros; discriminate.
    + destruct (fileURLToPath h) as [convert|].
      * destruct (convert url); discriminate.
      * injection H; intros; discriminate.
    + discriminate.
  - intros [Hs F]. apply Hspec in Hs. rewrite Hs, F. reflexivity.
  - apply drive_letter_no_scheme.
  - intros Hno.
    destruct (test regexUrl url) eqn:T; [exfalso; apply Hno, Hspec; reflexivity|].
    destruct (startsWith FILE_SCHEME url) eqn:F; [|reflexivity].
    exfalso. apply Hno, file_scheme_has_scheme, F.
  - intros convert filepath F Hc Hp. rewrite F, Hc, Hp.
    rewrite andb_false_r. reflexivity.
Qed.

Lemma resolveAbsolutePath_scheme_witness :
  resolveAbsolutePath Examples.no_files Examples.fixtures (u "C:\src\a.ts")
    = inr (u "/fixtures/C:\src\a.ts") /\
  resolveAbsolutePath Examples.no_files Examples.fixtures (u "/abs/a.ts")
    = inr (u "/abs/a.ts") /\
  resolveAbsolutePath Examples.no_files Examples.fixtures (u "file:///abs/a.ts")
    = inr (u "/abs/a.ts") /\
  resolveAbsolutePath Examples.no_files Examples.fixtures (u "http://example.com/a.ts")
    = inl (JsError (u "URL scheme not supported: http://example.com/a.ts")).
Proof.
  split; [|split; [|split]].
  - destruct (resolveAbsolutePath_scheme Examples.no_files Examples.fixtures
                (u "C:\src\a.ts")) as (_ & Hdrive & Hno & _).
    exact (Hno (Hdrive 67%N (u "\src\a.ts"))).
  - destruct (resolveAbsolutePath_scheme Examples.no_files Examples.fixtures
                (u "/abs/a.ts")) as (_ & _ & Hno & _).
    apply Hno. intros Hs. apply regexUrl_test_spec in Hs. vm_compute in Hs. discriminate.
  - destruct (resolveAbsolutePath_scheme Examples.no_files Examples.fixtures
                (u "file:///abs/a.ts")) as (_ & _ & _ & Hfile).
    apply (Hfile Fixture.file_url_path (u "/abs/a.ts")); reflexivity.
  - destruct (resolveAbsolutePath_scheme Examples.no_files Examples.fixtures
                (u "http://example.com/a.ts")) as ([_ Hscheme] & _).
    apply Hscheme. split; [|reflexivity].
    apply regexUrl_test_spec. vm_compute. reflexivity.
Defined.

(** ** Effects *)

Lemma warnings_app t1 t2 : warnings (t1 ++ t2) = warnings t1 ++ warnings t2.
Proof. apply flat_map_app. Qed.

Lemma dependencies_app t1 t2 :
  dependencies (t1 ++ t2) = dependencies t1 ++ dependencies t2.
Proof. apply flat_map_app. Qed.

Lemma successful_reads_app t1 t2 :
  successful_reads (t1 ++ t2) = successful_reads t1 ++ successful_reads t2.
Proof. apply flat_map_app. Qed.

Lemma reads_app t1 t2 : reads (t1 ++ t2) = reads t1 ++ reads t2.
Proof. apply flat_map_app. Qed.

Lemma balanced_app t1 t2 : balanced t1 -> balanced t2 -> balanced (t1 ++ t2).
Proof.
  unfold balanced. intros H1 H2.
  rewrite dependencies_app, successful_reads_app. congruence.
Qed.

Lemma balanced_concat (ts : list (list event)) :
  Forall balanced ts -> balanced (concat ts).
Proof.
  induction 1 as [|t ts Ht Hts IH]; simpl.
  - reflexivity.
  - apply balanced_app; assumption.
Qed.

Lemma bind_trace {A B} (c : M A) (f : A -> M B) :
  fst (bind c f) =
  fst c ++ match snd c with inl _ => [] | inr a => fst (f a) end.
Proof.
  destruct c as [t [e | a]]; simpl.
  - now rewrite app_nil_r.
  - now destruct (f a).
Qed.

(** [mapM_index] over computations that do not throw: one run per element,
    each the computation of that element at its own index. *)
Lemma mapM_index_runs {A B} (f : A -> nat -> M B) :
  (forall a i, exists t r, f a i = (t, inr r)) ->
  forall l i0, exists runs : list (list event * B),
    mapM_index f i0 l = (concat (map fst runs), inr (map snd runs)) /\
    length runs = length l /\
    forall j a, nth_error l j = Some a ->
      exists t r, nth_error runs j = Some (t, r) /\ f a (i0 + j) = (t, inr r).
Proof.
  intros Hf. induction l as [|a l IH]; intros i0.
  - exists []. simpl. repeat split; auto. intros [|j] a H; discriminate.
  - destruct (Hf a i0) as (t & r & E). destruct (IH (S i0)) as (runs & Er & Hl & Hn).
    exists ((t, r) :: runs). simpl. unfold bind at 1. rewrite E.
    unfold bind at 1. rewrite Er. simpl. rewrite app_nil_r. repeat split; auto.
    intros [|j] a' H; simpl in H.
    + injection H as <-. exists t, r. rewrite Nat.add_0_r. auto.
    + destruct (Hn j a' H) as (t' & r' & H1 & H2).
      exists t', r'. rewrite <- Nat.add_succ_comm. auto.
Qed.

(** ** One source *)

(** One source: it never throws, it warns once exactly when it fails, and
    it registers exactly what it has read. *)
Lemma loadSource_run h sourcesContext contents s i :
  exists t r,
    loadSource h sourcesContext contents s i = (t, inr r) /\
    length (warnings t) = (if source_fails h sourcesContext contents s i then 1 else 0) /\
    balanced t.
Proof.
  unfold loadSource, source_fails, balanced.
  destruct (resolveAbsolutePath h sourcesContext s) as [ex | p].
  - do 2 eexists. split; [reflexivity|]. split; reflexivity.
  - unfold readFile.
    destruct (content_at contents i); destruct (fs_readFile h p);
      do 2 eexists; (split; [reflexivity|]); split; reflexivity.
Qed.

Lemma loadSource_total h sourcesContext contents s i :
  exists t r, loadSource h sourcesContext contents s i = (t, inr r).
Proof.
  destruct (loadSource_run h sourcesContext contents s i) as (t & r & E & _). eauto.
Qed.

(** C2: a source whose path does not resolve.  There is one warning
    [Cannot find source file], the path stays the string as it was, nothing
    is read, and the content is [sourcesContent[i]] as it is: a string or
    [null] when the entry is there, and [undefined], not [null], when the
    index is past the end of [sourcesContent]. *)
Theorem unresolved_source_content (h : Host) (sourcesContext : str)
        (contents : list jsval) (s : str) (i : nat) (ex : exn) :
  resolveAbsolutePath h sourcesContext s = inl ex ->
  loadSource h sourcesContext contents s i =
    ([EmitWarning (JsError (u "Cannot find source file '" ++ s ++ u "': "
                            ++ exn_toString ex))],
     inr (mkSourceAndContent s (content_at contents i))) /\
  (length contents <= i -> content_at contents i = JUndefined).
Proof.
  intros Hr. split.
  - unfold loadSource. rewrite Hr. destruct (content_at contents i); reflexivity.
  - intros Hi. unfold content_at. now apply nth_overflow.
Qed.

Lemma unresolved_source_content_witness :
  loadSource Examples.no_files Examples.fixtures [] (u "http://example.com/a.ts") 0 =
    ([EmitWarning (JsError (u "Cannot find source file 'http://example.com/a.ts': Error: URL scheme not supported: http://example.com/a.ts"))],
     inr (mkSourceAndContent (u "http://example.com/a.ts") JUndefined)) /\
  snd (enrichSourceMap Examples.no_files Examples.remote_map Examples.fixtures false) =
    inr (mkRawSourceMap 3 (Some (u "bundle.js")) None [u "http://example.com/a.ts"] []
           (Some [JUndefined]) (u "AAAA")).
Proof.
  split; [|vm_compute; reflexivity].
  exact (proj1 (unresolved_source_content Examples.no_files Examples.fixtures []
                  (u "http://example.com/a.ts") 0
                  (JsError (u "URL scheme not supported: http://example.com/a.ts"))
                  eq_refl)).
Defined.

(** ** Enriching a map *)

Lemma enrichSourceMap_runs h sourceMap sourcesContext keep :
  exists (runs : list (list event * SourceAndContent)),
    enrichSourceMap h sourceMap sourcesContext keep =
      (concat (map fst runs),
       inr (mkRawSourceMap (version sourceMap) (file sourceMap) None
              (if negb keep then map source (map snd runs) else sources sourceMap)
              (names sourceMap)
              (Some (map content (map snd runs)))
              (mappings sourceMap))) /\
    length runs = length (sources sourceMap) /\
    forall i s, nth_error (sources sourceMap) i = Some s ->
      exists t r, nth_error runs i = Some (t, r) /\
        loadSource h sourcesContext (contents_of sourceMap)
                   (sourcePrefix_of sourceMap ++ s) i = (t, inr r).
Proof.
  destruct (mapM_index_runs
              (loadSource h sourcesContext (contents_of sourceMap))
              (loadSource_total h sourcesContext (contents_of sourceMap))
              (map (fun s => sourcePrefix_of sourceMap ++ s) (sources sourceMap)) 0)
    as (runs & Er & Hl & Hn).
  exists runs. unfold enrichSourceMap. cbv zeta. unfold bind at 1. rewrite Er.
  simpl. rewrite app_nil_r. rewrite length_map in Hl. repeat split; auto.
  intros i s H. apply (map_nth_error (fun s => sourcePrefix_of sourceMap ++ s)) in H.
  exact (Hn i _ H).
Qed.

(** C5, amended: once the raw map has been parsed to an object with an
    array [sources], loading it never throws and always yields a map.  There
    is one run per source, the run of source [i] is [loadSource] on that
    source and index alone, it does not throw and carries exactly one warning
    when the source fails and none otherwise; [sourcesContent] of the result
    is the list of the contents of the runs, as long as [sources] of the
    result, entry by entry. *)
Theorem enrichSourceMap_total (h : Host) (sourceMap : RawSourceMap)
        (sourcesContext : str) (keep : bool) :
  exists (runs : list (list event * SourceAndContent)) (out : RawSourceMap),
    enrichSourceMap h sourceMap sourcesContext keep = (concat (map fst runs), inr out) /\
    (forall context url t0,
       readSourceMap h context url
         = (t0, inr (SourceMapObject sourceMap, sourcesContext)) ->
       loadSourceMap h context url keep = (t0 ++ concat (map fst runs), inr out)) /\
    sourcesContent out = Some (map (fun run => content (snd run)) runs) /\
    length runs = length (sources out) /\
    length (sources out) = length (sources sourceMap) /\
    forall i s, nth_error (sources sourceMap) i = Some s ->
      exists t r,
        nth_error runs i = Some (t, r) /\
        loadSource h sourcesContext (contents_of sourceMap)
                   (sourcePrefix_of sourceMap ++ s) i = (t, inr r) /\
        length (warnings t) =
          (if source_fails h sourcesContext (contents_of sourceMap)
                           (sourcePrefix_of sourceMap ++ s) i then 1 else 0) /\
        (keep = false -> nth_error (sources out) i = Some (source r)).
Proof.
  destruct (enrichSourceMap_runs h sourceMap sourcesContext keep) as (runs & E & Hl & Hn).
  eexists runs, _. split; [exact E|].
  split.
  { intros context url t0 Hread. unfold loadSourceMap. rewrite Hread.
    cbn [bind fst snd]. rewrite E. reflexivity. }
  simpl.
  split; [now rewrite map_map|].
  assert (Hlen : length (if negb keep then map source (map snd runs)
                         else sources sourceMap) = length (sources sourceMap)).
  { destruct keep; simpl; [reflexivity | now rewrite !length_map]. }
  split; [congruence|]. split; [exact Hlen|].
  intros i s H. destruct (Hn i s H) as (t & r & Hr & Hs).
  exists t, r. split; [exact Hr|]. split; [exact Hs|]. split.
  - destruct (loadSource_run h sourcesContext (contents_of sourceMap)
                             (sourcePrefix_of sourceMap ++ s) i) as (t' & r' & E' & Hw & _).
    rewrite Hs in E'. injection E' as <- <-. exact Hw.
  - intros ->. simpl. rewrite map_map.
    apply (map_nth_error (fun run => source (snd run))) in Hr. exact Hr.
Qed.

Lemma enrichSourceMap_total_witness :
  exists (runs : list (list event * SourceAndContent)) (out : RawSourceMap),
    loadSourceMap Examples.rooted_host Examples.fixtures (u "bundle.js.map") false
    = ([ReadFile (u "/fixtures/bundle.js.map") true;
        AddDependency (u "/fixtures/bundle.js.map")] ++ concat (map fst runs),
       inr out) /\
    sourcesContent out = Some (map (fun run => content (snd run)) runs) /\
    length runs = length (sources out).
Proof.
  destruct (enrichSourceMap_total Examples.rooted_host Examples.rooted_map
              (u "/fixtures") false) as (runs & out & _ & Hload & Hc & Hl & _).
  exists runs, out. split; [|split; [exact Hc | exact Hl]].
  apply (Hload Examples.fixtures (u "bundle.js.map")). vm_compute. reflexivity.
Defined.

(** The claim C5 as it is written fails: the map file holds [{}], which is
    read and parses; it has no [sources], [loadSourceMap] throws before any
    source is looked at, and the loader returns no map. *)
Lemma empty_object_map_counterexample :
  readSourceMap Examples.empty_map_host Examples.fixtures (u "empty.map") =
    ([ReadFile (u "/fixtures/empty.map") true; AddDependency (u "/fixtures/empty.map")],
     inr (NoSourcesArray Fixture.cannot_read_map, u "/fixtures")) /\
  loadSourceMap Examples.empty_map_host Examples.fixtures (u "empty.map") false =
    ([ReadFile (u "/fixtures/empty.map") true; AddDependency (u "/fixtures/empty.map")],
     inl (HostError Fixture.cannot_read_map)) /\
  loader Examples.empty_map_host Examples.fixtures (mkOptions None)
         Examples.empty_map_text None =
    ([Cacheable;
      ReadFile (u "/fixtures/empty.map") true;
      AddDependency (u "/fixtures/empty.map");
      EmitWarning (HostError Fixture.cannot_read_map)],
     mkLoaderResult Examples.empty_map_text None).
Proof.
  split; [|split]; vm_compute; reflexivity.
Qed.



(** ** Dependencies *)

Lemma readSourceMap_balanced h context url :
  balanced (fst (readSourceMap h context url)).
Proof.
  unfold readSourceMap, balanced.
  destruct (exec regexDataUrl url) as [dm|].
  - destruct (JSON_parse h _); reflexivity.
  - unfold readFile. destruct (resolveAbsolutePath h context url) as [ex | p];
      [reflexivity|]. simpl.
    destruct (fs_readFile h p) as [e | fileContent]; [reflexivity|]. simpl.
    destruct (JSON_parse h fileContent); reflexivity.
Qed.

Lemma enrichSourceMap_balanced h sourceMap sourcesContext keep :
  balanced (fst (enrichSourceMap h sourceMap sourcesContext keep)).
Proof.
  destruct (enrichSourceMap_runs h sourceMap sourcesContext keep) as (runs & E & Hl & Hn).
  rewrite E. simpl. apply balanced_concat. apply Forall_forall.
  intros t Hin. apply in_map_iff in Hin as ([t' r] & <- & Hin).
  apply In_nth_error in Hin as [i Hi].
  assert (Hlt : i < length (sources sourceMap)).
  { rewrite <- Hl. apply nth_error_Some. congruence. }
  destruct (nth_error (sources sourceMap) i) as [s|] eqn:Es;
    [|apply nth_error_None in Es; lia].
  destruct (Hn i s Es) as (t & r0 & Hr & Hs). rewrite Hi in Hr. injection Hr as <- <-.
  destruct (loadSource_run h sourcesContext (contents_of sourceMap)
                           (sourcePrefix_of sourceMap ++ s) i) as (t & r0 & E' & _ & Hb).
  rewrite Hs in E'. injection E' as <- <-. exact Hb.
Qed.

Lemma loadSourceMap_balanced h context url keep :
  balanced (fst (loadSourceMap h context url keep)).
Proof.
  unfold loadSourceMap. rewrite bind_trace. apply balanced_app.
  - apply readSourceMap_balanced.
  - destruct (snd (readSourceMap h context url)) as [ex | [[sourceMap | typeError] ctx]];
      [reflexivity | | reflexivity].
    apply enrichSourceMap_balanced.
Qed.

Lemma loader_balanced h context given text inmap :
  balanced (fst (loader h context given text inmap)).
Proof.
  unfold loader.
  assert (Hc : balanced (if has_cacheable h then [Cacheable] else [])).
  { destruct (has_cacheable h); reflexivity. }
  destruct text as [|c tl]; [reflexivity|]. destruct inmap; [reflexivity|].
  destruct (find_directive (c :: tl)) as [mt|]; [|exact Hc].
  pose proof (loadSourceMap_balanced h context (group1_of mt)
                (truthy_option (keepRelativeSources (assign_options DEFAULT_OPTIONS given))))
    as Hb.
  destruct (loadSourceMap h context (group1_of mt) _) as [t [ex | sourceMap]]; simpl in *.
  - apply balanced_app; [exact Hc|]. apply balanced_app; [exact Hb | reflexivity].
  - apply balanced_app; assumption.
Qed.

(** C9: over a whole run of the loader the registered dependencies are the
    paths of the successful reads, one registration per successful read and
    in their order, so none for a failed read.  Reading an inline map does
    nothing to the world; a map on disk is read once and registered exactly
    when that read succeeds; a source whose content is in [sourcesContent]
    is neither read nor registered. *)
Theorem dependencies_follow_reads (h : Host) (context : str) :
  (forall given text inmap,
     dependencies (fst (loader h context given text inmap))
     = successful_reads (fst (loader h context given text inmap))) /\
  (forall url dm,
     exec regexDataUrl url = Some dm -> fst (readSourceMap h context url) = []) /\
  (forall url p,
     exec regexDataUrl url = None -> resolveAbsolutePath h context url = inr p ->
     fst (readSourceMap h context url) =
       match fs_readFile h p with
       | inr _ => [ReadFile p true; AddDependency p]
       | inl _ => [ReadFile p false]
       end) /\
  (forall contents s i c,
     content_at contents i = JString c ->
     reads (fst (loadSource h context contents s i)) = [] /\
     dependencies (fst (loadSource h context contents s i)) = []).
Proof.
  split; [|split; [|split]].
  - intros given text inmap. apply loader_balanced.
  - intros url dm E. unfold readSourceMap. rewrite E.
    destruct (JSON_parse h _); reflexivity.
  - intros url p E Hp. unfold readSourceMap, readFile. rewrite E, Hp. simpl.
    destruct (fs_readFile h p) as [e | fileContent]; [reflexivity|]. simpl.
    destruct (JSON_parse h fileContent); reflexivity.
  - intros contents s i c Hc. unfold loadSource. rewrite Hc.
    destruct (resolveAbsolutePath h context s); split; reflexivity.
Qed.

Lemma dependencies_follow_reads_witness :
  fst (readSourceMap Examples.rooted_host Examples.fixtures
         (u "data:application/json;base64,e30=")) = [] /\
  fst (readSourceMap Examples.rooted_host Examples.fixtures (u "bundle.js.map")) =
    [ReadFile (u "/fixtures/bundle.js.map") true;
     AddDependency (u "/fixtures/bundle.js.map")] /\
  fst (readSourceMap Examples.rooted_host Examples.fixtures (u "missing.map")) =
    [ReadFile (u "/fixtures/missing.map") false] /\
  reads (fst (loadSource Examples.rooted_host Examples.fixtures
                [JString (u "let a = 1")] (u "src/a.ts") 0)) = [].
Proof.
  destruct (dependencies_follow_reads Examples.rooted_host Examples.fixtures)
    as (_ & Hinline & Hfile & Hheld).
  split; [|split; [|split]].
  - eapply Hinline. vm_compute. reflexivity.
  - apply (Hfile (u "bundle.js.map") (u "/fixtures/bundle.js.map")); reflexivity.
  - apply (Hfile (u "missing.map") (u "/fixtures/missing.map")); reflexivity.
  - apply (Hheld [JString (u "let a = 1")] (u "src/a.ts") 0 (u "let a = 1")).
    reflexivity.
Defined.

(** ** The loader on a directive *)

(** C7, amended: when the reference of the active directive matches
    [regexDataUrl] (after [;base64,] it has at least one character of the
    base64 alphabet) and the decoded payload does not parse, the loader emits
    one warning [Cannot parse inline SourceMap '...'] with the first 50 code
    units of the payload at most, returns the text unchanged and no map. *)
Theorem inline_parse_failure (h : Host) (context : str) (given : Options)
        (text : str) (mt dm : match_result) (ex : host_error) :
  find_directive text = Some mt ->
  exec regexDataUrl (group1_of mt) = Some dm ->
  JSON_parse h (base64_toString h (group1_of dm)) = inl ex ->
  let warning :=
    JsError (u "Cannot parse inline SourceMap '" ++ substr0 50 (group1_of dm)
             ++ u "': " ++ exn_toString (HostError ex)) in
  loader h context given text None =
    ((if has_cacheable h then [Cacheable] else []) ++ [EmitWarning warning],
     mkLoaderResult text None) /\
  is_inline_parse_warning warning = true /\
  length (substr0 50 (group1_of dm)) <= 50.
Proof.
  intros Hfd Hdata Hparse warning. split; [|split].
  - pose proof (find_directive_nonempty _ _ Hfd) as Hne.
    destruct text as [|c tl]; [congruence|].
    unfold loader. rewrite Hfd.
    unfold loadSourceMap, readSourceMap. rewrite Hdata, Hparse. reflexivity.
  - reflexivity.
  - unfold substr0. apply firstn_le_length.
Qed.

Lemma inline_parse_failure_witness :
  loader Examples.no_files Examples.fixtures (mkOptions None)
         Examples.invalid_inline_text None =
    ([Cacheable;
      EmitWarning (JsError (u "Cannot parse inline SourceMap 'invalid/base64=': SyntaxError: Unexpected token"))],
     mkLoaderResult Examples.invalid_inline_text None).
Proof.
  refine (proj1 (inline_parse_failure Examples.no_files Examples.fixtures (mkOptions None)
                   Examples.invalid_inline_text
                   (MatchResult 18
                      (u "// @sourceMappingURL=data:application/source-map;base64,invalid/base64="
                         ++ [LF])
                      (Some (u "data:application/source-map;base64,invalid/base64=")))
                   (MatchResult 0 (u "data:application/source-map;base64,invalid/base64=")
                      (Some (u "invalid/base64=")))
                   Fixture.unexpected_token _ _ _)); vm_compute; reflexivity.
Defined.

(** The claim C7 as it is written fails: the payload [!!!!] is no base64,
    the reference is then not taken for an inline map but for a path, and
    the warning is the one of the unsupported scheme. *)
Lemma corrupt_inline_payload_counterexample :
  find_directive Examples.corrupt_inline_text =
    Some (MatchResult 0 Examples.corrupt_inline_text
            (Some (u "data:application/json;base64,!!!!"))) /\
  loader Examples.no_files Examples.fixtures (mkOptions None)
         Examples.corrupt_inline_text None =
    ([Cacheable;
      EmitWarning (JsError (u "URL scheme not supported: data:application/json;base64,!!!!"))],
     mkLoaderResult Examples.corrupt_inline_text None) /\
  ~ (exists w,
       In w (warnings (fst (loader Examples.no_files Examples.fixtures (mkOptions None)
                                   Examples.corrupt_inline_text None))) /\
       is_inline_parse_warning w = true).
Proof.
  split; [vm_compute; reflexivity|]. split; [vm_compute; reflexivity|].
  intros (w & Hin & Hw). vm_compute in Hin. destruct Hin as [<- | []].
  vm_compute in Hw. discriminate.
Qed.

(** C8: a map file that cannot be read.  The loader reads once, registers
    nothing, returns the text unchanged and no map, and the one warning is
    the exception of [fs.readFile] as the runtime threw it: nothing with
    [Cannot open SourceMap] is put around it, which the test
    [should warn on missing SourceMap] asks for. *)
Theorem missing_map_file_raw_error (h : Host) (context : str) (given : Options)
        (text : str) (mt : match_result) (p : str) (e : host_error) :
  find_directive text = Some mt ->
  exec regexDataUrl (group1_of mt) = None ->
  resolveAbsolutePath h context (group1_of mt) = inr p ->
  fs_readFile h p = inl e ->
  loader h context given text None =
    ((if has_cacheable h then [Cacheable] else [])
       ++ [ReadFile p false; EmitWarning (HostError e)],
     mkLoaderResult text None) /\
  dependencies (fst (loader h context given text None)) = [].
Proof.
  intros Hfd Hdata Hp Hread.
  pose proof (find_directive_nonempty _ _ Hfd) as Hne.
  destruct text as [|c tl]; [congruence|].
  assert (E : loader h context given (c :: tl) None =
              ((if has_cacheable h then [Cacheable] else [])
                 ++ [ReadFile p false; EmitWarning (HostError e)],
               mkLoaderResult (c :: tl) None)).
  { unfold loader. rewrite Hfd.
    unfold loadSourceMap, readSourceMap, readFile. rewrite Hdata, Hp. simpl.
    rewrite Hread. reflexivity. }
  split; [exact E|]. rewrite E. simpl.
  rewrite dependencies_app. destruct (has_cacheable h); reflexivity.
Qed.

Lemma missing_map_file_raw_error_witness :
  loader Examples.no_files Examples.fixtures (mkOptions None)
         Examples.missing_map_text None =
    ([Cacheable;
      ReadFile (u "/fixtures/missing-source-map.map") false;
      EmitWarning (HostError (mkHostError (u "Error")
        (u "ENOENT: no such file or directory, open '/fixtures/missing-source-map.map'")))],
     mkLoaderResult Examples.missing_map_text None) /\
  is_cannot_open_warning (HostError (mkHostError (u "Error")
    (u "ENOENT: no such file or directory, open '/fixtures/missing-source-map.map'")))
  = false.
Proof.
  split; [|vm_compute; reflexivity].
  refine (proj1 (missing_map_file_raw_error Examples.no_files Examples.fixtures
                   (mkOptions None) Examples.missing_map_text
                   (MatchResult 15 (u "//#sourceMappingURL=missing-source-map.map" ++ [LF])
                      (Some (u "missing-source-map.map")))
                   (u "/fixtures/missing-source-map.map")
                   (Fixture.enoent (u "/fixtures/missing-source-map.map")) _ _ _ _));
    vm_compute; reflexivity.
Defined.

(** With a directive and a map, the loader returns the text after [replace]
    and the map; the text is the input without the matched span when the
    matched text does not occur before the match. *)
Lemma loader_rewrites h context given text mt t sourceMap :
  find_directive text = Some mt ->
  loadSourceMap h context (group1_of mt)
    (truthy_option (keepRelativeSources (assign_options DEFAULT_OPTIONS given)))
  = (t, inr sourceMap) ->
  loader h context given text None =
    ((if has_cacheable h then [Cacheable] else []) ++ t,
     mkLoaderResult (replace_first (whole mt) text) (Some sourceMap)) /\
  ((forall j, j < index mt -> startsWith (whole mt) (skipn j text) = false) ->
   replace_first (whole mt) text = excise text (index mt) (length (whole mt))).
Proof.
  intros Hfd Hload. split.
  - pose proof (find_directive_nonempty _ _ Hfd) as Hne.
    destruct text as [|c tl]; [congruence|].
    unfold loader. rewrite Hfd, Hload. reflexivity.
  - intros Hbefore. apply replace_first_excise; [exact Hbefore|].
    apply find_directive_sound in Hfd as (e & _ & _ & Hw & _).
    apply startsWith_spec. exists (skipn (e - index mt) (skipn (index mt) text)).
    rewrite Hw. symmetry. apply firstn_skipn.
Qed.

(** C4: the same directive twice.  The match is the second one, at index 35;
    the text returned is the input without the first one, the matched span
    is still there. *)
Theorem repeated_directive_first_removed :
  find_directive Examples.twice_text =
    Some (MatchResult 35 (u "//# sourceMappingURL=bundle.js.map") (Some (u "bundle.js.map"))) /\
  excise Examples.twice_text 35 34 = u "//# sourceMappingURL=bundle.js.map" ++ [LF] /\
  snd (loader Examples.rooted_host Examples.fixtures (mkOptions None)
              Examples.twice_text None) =
    mkLoaderResult ([LF] ++ u "//# sourceMappingURL=bundle.js.map")
      (Some (mkRawSourceMap 3 (Some (u "bundle.js")) None [u "/fixtures/src/a.ts"] []
               (Some [JString (u "let a = 1")]) (u "AAAA"))).
Proof.
  split; [|split]; vm_compute; reflexivity.
Qed.

(** * Further properties *)

(** ** The shape of a directive *)

Lemma contains_marker_at text : contains_marker text <-> exists q, marker_at text q.
Proof.
  split.
  - intros (a & b & ->). exists (length a), b.
    rewrite skipn_app, Nat.sub_diag, skipn_all. reflexivity.
  - intros (q & post & H). exists (firstn q text), post.
    rewrite <- H. symmetry. apply firstn_skipn.
Qed.

(** What a directive pattern has consumed when its lookahead is reached:
    the opener, white space, [@] or [#], white space, the marker, white
    space, [=], white space and the reference, which is free of white space
    and is the capture. *)
Lemma directive_decompose opener closer la st st' :
  matches (Seq (Lit opener) (Seq (baseRegex_with la) closer)) st st' ->
  exists w1 c w2 w3 w4 cap p p',
    spaces w1 /\ at_or_hash c = true /\ spaces w2 /\ spaces w3 /\ spaces w4 /\
    no_space cap /\
    rest st = opener ++ w1 ++ c :: w2 ++ marker ++ w3 ++ 61%N :: w4 ++ cap ++ rest p /\
    caps p = (1, cap) :: caps st /\
    matches la p p' /\ matches closer p' st'.
Proof.
  intros (s0 & H0 & sb & Hb & Hc).
  apply matches_Lit in H0 as (t0 & E0 & ->).
  apply baseRegex_with_split in Hb as (p & Hb & Hla).
  destruct Hb as (s1 & H1 & s2 & H2 & s3 & H3 & s4 & H4 & s5 & H5 & s6 & H6
                  & s7 & H7 & s8 & H8 & H9).
  cbn [matches] in H9. subst p.
  destruct s1 as [p1 r1 c1], s3 as [p3 r3 c3], s5 as [p5 r5 c5], s7 as [p7 r7 c7].
  apply star_Chr in H1 as (w1 & Hw1 & E1 & [= -> ->]). cbn [rest pos caps] in *.
  destruct H2 as (c & tl2 & E2 & Hc2 & ->). cbn [rest pos caps] in *.
  apply star_Chr in H3 as (w2 & Hw2 & E3 & [= -> ->]). cbn [rest pos caps] in *.
  apply matches_Lit in H4 as (t4 & E4 & ->). cbn [rest pos caps] in *.
  apply star_Chr in H5 as (w3 & Hw3 & E5 & [= -> ->]). cbn [rest pos caps] in *.
  destruct H6 as (c6 & tl6 & E6 & Hc6 & ->). cbn [rest pos caps] in *.
  apply N.eqb_eq in Hc6. subst c6.
  apply star_Chr in H7 as (w4 & Hw4 & E7 & [= -> ->]). cbn [rest pos caps] in *.
  destruct H8 as (mid & Hs & ->). destruct mid as [pm rm cm].
  apply star_Chr in Hs as (cap & Hcap & Ecap & [= -> ->]). cbn [rest pos caps] in *.
  subst t0 r1 tl2 r3 t4 r5 tl6 r7.
  exists w1, c, w2, w3, w4, cap.
  match type of Hla with matches _ ?p _ => exists p end.
  exists sb. cbn [rest pos caps].
  split; [exact Hw1|]. split; [exact Hc2|]. split; [exact Hw2|].
  split; [exact Hw3|]. split; [exact Hw4|]. split; [exact Hcap|].
  split; [exact E0|]. split; [|split; [exact Hla | exact Hc]].
  f_equal. f_equal.
  match goal with |- context [firstn ?n _] => replace n with (length cap) by lia end.
  rewrite firstn_app, Nat.sub_diag, firstn_all. simpl. apply app_nil_r.
Qed.

Lemma directive_match_shape opener closer text i st' :
  matches (Seq (Lit opener) (Seq baseRegex closer)) (MState i (skipn i text) []) st' ->
  exists w1 c w2 w3 w4 ref closed p,
    spaces w1 /\ at_or_hash c = true /\ spaces w2 /\ spaces w3 /\ spaces w4 /\
    no_space ref /\
    skipn i text =
      (opener ++ w1 ++ c :: w2 ++ marker ++ w3 ++ 61%N :: w4 ++ ref ++ closed)
        ++ rest st' /\
    pos st' =
      i + length (opener ++ w1 ++ c :: w2 ++ marker ++ w3 ++ 61%N :: w4 ++ ref ++ closed) /\
    ~ contains_marker (closed ++ rest st') /\
    rest p = closed ++ rest st' /\ caps p = [(1, ref)] /\ matches closer p st'.
Proof.
  intros H. pose proof (matches_consumes _ _ _ H) as (w & Ew & Pw).
  apply directive_decompose in H
    as (w1 & c & w2 & w3 & w4 & ref & p & p' & Hw1 & Hc & Hw2 & Hw3 & Hw4 & Href
        & E & Ecaps & Hla & Hclose).
  apply no_later_marker_elim in Hla as [-> Hno].
  pose proof (matches_consumes _ _ _ Hclose) as (closed & Ec & _).
  cbn [rest pos caps] in *.
  exists w1, c, w2, w3, w4, ref, closed, p.
  assert (Etext : skipn i text =
            (opener ++ w1 ++ c :: w2 ++ marker ++ w3 ++ 61%N :: w4 ++ ref ++ closed)
              ++ rest st').
  { rewrite E, Ec. repeat (rewrite <- ?app_assoc; cbn [app]). reflexivity. }
  split; [exact Hw1|]. split; [exact Hc|]. split; [exact Hw2|].
  split; [exact Hw3|]. split; [exact Hw4|]. split; [exact Href|].
  split; [exact Etext|]. split.
  - rewrite Pw. f_equal. f_equal. rewrite Ew in Etext.
    now apply app_inv_tail in Etext.
  - split; [|split; [exact Ec | split; [exact Ecaps | exact Hclose]]].
    intros (a & b & Hab). rewrite <- Ec in Hab. exact (Hno a b Hab).
Qed.

Lemma found_match text mt :
  find_directive text = Some mt ->
  exists opener closer st',
    ((opener = u "/*" /\ closer = Seq ws (Lit (u "*/"))) \/
     (opener = u "//" /\ closer = line_end /\ exec regex1 text = None)) /\
    matches (Seq (Lit opener) (Seq baseRegex closer))
            (MState (index mt) (skipn (index mt) text) []) st' /\
    whole mt = firstn (pos st' - index mt) (skipn (index mt) text) /\
    group1 mt = get_cap 1 (caps st') /\
    index mt <= length text.
Proof.
  unfold find_directive. intros H.
  destruct (exec regex1 text) as [r1|] eqn:E1.
  - injection H as <-. apply exec_sound in E1 as (st' & Hi & Hm & Hw & Hg).
    exists (u "/*"), (Seq ws (Lit (u "*/"))), st'. auto 6.
  - apply exec_sound in H as (st' & Hi & Hm & Hw & Hg).
    exists (u "//"), line_end, st'. auto 7.
Qed.

Lemma marker_at_bound text q : marker_at text q -> q < length text.
Proof.
  intros [post H]. destruct (Nat.lt_ge_cases q (length text)) as [Hlt | Hge]; [exact Hlt|].
  rewrite skipn_all2 in H by exact Hge. discriminate.
Qed.

Lemma contains_markerP text : contains_markerb text = false -> ~ contains_marker text.
Proof.
  unfold contains_markerb. intros H Hc. apply contains_marker_at in Hc as [q Hq].
  assert (Hex : existsb (marker_atb text) (seq 0 (S (length text))) = true).
  { apply existsb_exists. exists q. split.
    - apply in_seq. apply marker_at_bound in Hq. lia.
    - now apply marker_atP. }
  congruence.
Qed.

(** X1: a text in which [sourceMappingURL] does not occur has no directive:
    the loader returns it unchanged with no map, reads no file, registers no
    dependency and emits no warning. *)
Theorem no_marker_no_directive (h : Host) (context : str) (given : Options)
        (text : str) :
  ~ contains_marker text ->
  find_directive text = None /\
  snd (loader h context given text None) = mkLoaderResult text None /\
  reads (fst (loader h context given text None)) = [] /\
  dependencies (fst (loader h context given text None)) = [] /\
  warnings (fst (loader h context given text None)) = [].
Proof.
  intros Hno.
  assert (Hfd : find_directive text = None).
  { destruct (find_directive text) as [mt|] eqn:E; [|reflexivity].
    exfalso. apply Hno.
    apply found_match in E as (opener & closer & st' & _ & Hm & _).
    apply directive_decompose in Hm
      as (w1 & c & w2 & w3 & w4 & ref & p & p' & _ & _ & _ & _ & _ & _ & E & _).
    cbn [rest] in E.
    exists (firstn (index mt) text ++ opener ++ w1 ++ c :: w2),
           (w3 ++ 61%N :: w4 ++ ref ++ rest p).
    rewrite <- (firstn_skipn (index mt) text) at 1. rewrite E.
    repeat (rewrite <- ?app_assoc; cbn [app]). reflexivity. }
  split; [exact Hfd|].
  unfold loader. destruct text as [|c tl]; [repeat split|].
  rewrite Hfd. destruct (has_cacheable h); repeat split.
Qed.

Lemma no_marker_no_directive_witness :
  snd (loader Examples.no_files Examples.fixtures (mkOptions None)
              (u "without SourceMap") None)
  = mkLoaderResult (u "without SourceMap") None.
Proof.
  refine (proj1 (proj2 (no_marker_no_directive Examples.no_files Examples.fixtures
                          (mkOptions None) (u "without SourceMap") _))).
  apply contains_markerP. vm_compute. reflexivity.
Defined.

(** X18: when the marker occurs at an index [q] at or after the end of
    every span of the text that has the form of a directive comment (the
    patterns without their lookahead, so the reference of a span is any run
    of characters that are no white space), neither [regex1] nor [regex2]
    matches anywhere, and the loader hands back the text unchanged with no
    map and without reading or warning. *)
Theorem trailing_marker_no_directive (h : Host) (context : str) (given : Options)
        (text : str) (q : nat) :
  marker_at text q ->
  (forall s e, directive_comment text s e -> e <= q) ->
  exec regex1 text = None /\ exec regex2 text = None /\
  loader h context given text None =
    (if has_cacheable h then [Cacheable] else [], mkLoaderResult text None).
Proof.
  intros Hq Hall.
  assert (Hfd : find_directive text = None).
  { destruct (find_directive text) as [mr|] eqn:E; [|reflexivity].
    apply find_directive_sound in E as (e & Hd & _ & _ & Hlast).
    specialize (Hall _ _ Hd). specialize (Hlast _ Hq). lia. }
  assert (H12 : exec regex1 text = None /\ exec regex2 text = None).
  { unfold find_directive in Hfd.
    destruct (exec regex1 text); [discriminate | auto]. }
  destruct H12 as [H1 H2]. repeat split; auto.
  destruct text as [|c tl].
  - destruct Hq as [post Hq]. destruct q; discriminate.
  - unfold loader. rewrite Hfd. reflexivity.
Qed.

Lemma trailing_marker_no_directive_witness :
  exec regex1 Examples.trailing_marker_text = None /\
  exec regex2 Examples.trailing_marker_text = None /\
  loader Examples.no_files (u "/fix") (mkOptions None)
         Examples.trailing_marker_text None =
    ([Cacheable], mkLoaderResult Examples.trailing_marker_text None).
Proof.
  apply (trailing_marker_no_directive Examples.no_files (u "/fix") (mkOptions None)
           Examples.trailing_marker_text 38).
  - apply marker_atP. vm_compute. reflexivity.
  - apply directives_end_byP. vm_compute. reflexivity.
Defined.

(** X2: when a directive is found, [match[1]] is a string free of white
    space; [match[0]] is the piece of the text at [match.index] and reads:
    some head, the marker, [=] with white space around it, the reference,
    the end of the comment; and the marker occurs nowhere in the text after
    the reference. *)
Theorem find_directive_reference (text : str) (mt : match_result) :
  find_directive text = Some mt ->
  exists ref head w3 w4 closed after,
    group1 mt = Some ref /\ no_space ref /\ spaces w3 /\ spaces w4 /\
    whole mt = head ++ marker ++ w3 ++ 61%N :: w4 ++ ref ++ closed /\
    skipn (index mt) text = whole mt ++ after /\
    ~ contains_marker (closed ++ after).
Proof.
  intros H.
  apply found_match in H as (opener & closer & st' & Hoc & Hm & Hw & Hg & _).
  assert (Hfree : group_free closer = true).
  { destruct Hoc as [[_ ->] | [_ [-> _]]]; reflexivity. }
  apply directive_match_shape in Hm
    as (w1 & c & w2 & w3 & w4 & ref & closed & p & Hw1 & Hc & Hw2 & Hw3 & Hw4 & Href
        & E & P & Hno & Ep & Ecaps & Hclose).
  exists ref, (opener ++ w1 ++ c :: w2), w3, w4, closed, (rest st').
  split; [|split; [exact Href|split; [exact Hw3|split; [exact Hw4|]]]].
  - rewrite Hg, (group_free_caps _ _ _ Hfree Hclose), Ecaps. reflexivity.
  - assert (Ewhole : whole mt =
              opener ++ w1 ++ c :: w2 ++ marker ++ w3 ++ 61%N :: w4 ++ ref ++ closed).
    { rewrite Hw, P, E.
      replace (index mt + _ - index mt)
        with (length (opener ++ w1 ++ c :: w2 ++ marker ++ w3 ++ 61%N :: w4 ++ ref ++ closed))
        by lia.
      rewrite firstn_app, Nat.sub_diag, firstn_all. simpl firstn. apply app_nil_r. }
    split; [|split; [|exact Hno]].
    + rewrite Ewhole. repeat (rewrite <- ?app_assoc; cbn [app]). reflexivity.
    + rewrite Ewhole. exact E.
Qed.

Lemma find_directive_reference_witness :
  exists ref head w3 w4 closed after,
    group1 (MatchResult 11 (u "//# sourceMappingURL=bundle.js.map")
                        (Some (u "bundle.js.map"))) = Some ref /\
    no_space ref /\ spaces w3 /\ spaces w4 /\
    u "//# sourceMappingURL=bundle.js.map"
      = head ++ marker ++ w3 ++ 61%N :: w4 ++ ref ++ closed /\
    skipn 11 Examples.rooted_text = u "//# sourceMappingURL=bundle.js.map" ++ after /\
    ~ contains_marker (closed ++ after).
Proof.
  apply (find_directive_reference Examples.rooted_text
           (MatchResult 11 (u "//# sourceMappingURL=bundle.js.map")
                        (Some (u "bundle.js.map")))).
  vm_compute. reflexivity.
Defined.

(** ** The directive at the end of a text *)

(** The marker does not overlap itself: its first character occurs in it
    only once. *)
Lemma marker_no_overlap l X Y :
  marker ++ Y = l ++ marker ++ X -> length l < 16 -> l = [].
Proof.
  intros E Hl. destruct l as [|c0 l0]; [reflexivity|]. exfalso.
  assert (Hn : nth_error marker (length (c0 :: l0)) = Some 115%N).
  { rewrite <- (nth_error_app1 marker Y) by exact Hl.
    rewrite E. rewrite nth_error_app2 by lia. rewrite Nat.sub_diag. reflexivity. }
  remember (length (c0 :: l0)) as k eqn:Ek. simpl in Ek.
  assert (Hk : 0 < k < 16) by lia. clear - Hn Hk.
  do 16 (destruct k as [|k]; [try lia; vm_compute in Hn; discriminate|]). lia.
Qed.

(** Two places of the marker in one string: the same place, or one wholly
    before the other. *)
Lemma marker_align A X B Y :
  A ++ marker ++ X = B ++ marker ++ Y ->
  (A = B /\ X = Y) \/
  (exists D, B = A ++ marker ++ D /\ X = D ++ marker ++ Y) \/
  (exists D, A = B ++ marker ++ D /\ Y = D ++ marker ++ X).
Proof.
  assert (Hlong : forall l X Y, marker ++ Y = l ++ marker ++ X -> 16 <= length l ->
                                exists D, l = marker ++ D /\ Y = D ++ marker ++ X).
  { intros l X0 Y0 E Hl. exists (skipn 16 l).
    assert (El : l = marker ++ skipn 16 l).
    { rewrite <- (firstn_skipn 16 l) at 1. f_equal.
      apply (f_equal (firstn 16)) in E.
      rewrite firstn_app in E. change (firstn 16 marker) with marker in E.
      change (16 - length marker) with 0 in E. rewrite firstn_O, app_nil_r in E.
      rewrite firstn_app in E. replace (16 - length l) with 0 in E by lia.
      rewrite firstn_O, app_nil_r in E. auto. }
    split; [exact El|]. rewrite El in E at 1. rewrite <- app_assoc in E.
    now apply app_inv_head in E. }
  intros E. apply app_eq_app in E as [l [[EA EY] | [EB EX]]].
  - destruct (Nat.lt_ge_cases (length l) 16) as [Hlt | Hge].
    + pose proof (marker_no_overlap _ _ _ EY Hlt) as ->.
      rewrite app_nil_r in EA. change ([] ++ marker ++ X) with (marker ++ X) in EY.
      apply app_inv_head in EY. auto.
    + destruct (Hlong _ _ _ EY Hge) as (D & -> & HY). right. right. exists D. auto.
  - destruct (Nat.lt_ge_cases (length l) 16) as [Hlt | Hge].
    + pose proof (marker_no_overlap _ _ _ EX Hlt) as ->.
      rewrite app_nil_r in EB. change ([] ++ marker ++ Y) with (marker ++ Y) in EX.
      apply app_inv_head in EX. auto.
    + destruct (Hlong _ _ _ EX Hge) as (D & -> & HX). right. left. exists D. auto.
Qed.

Lemma app_same_length {A} (x a y b : list A) :
  x ++ a = y ++ b -> length a = length b -> x = y /\ a = b.
Proof.
  intros E Hl.
  assert (Hx : length x = length y).
  { apply (f_equal (@length A)) in E. rewrite !length_app in E. lia. }
  split.
  - apply (f_equal (firstn (length x))) in E.
    rewrite firstn_app, Nat.sub_diag, firstn_all, firstn_O, app_nil_r in E.
    rewrite Hx, firstn_app, Nat.sub_diag, firstn_all, firstn_O, app_nil_r in E.
    exact E.
  - apply (f_equal (skipn (length x))) in E.
    rewrite skipn_app, Nat.sub_diag, skipn_all in E.
    rewrite Hx, skipn_app, Nat.sub_diag, skipn_all in E. exact E.
Qed.

Lemma spaces_last w z : spaces (w ++ [z]) -> is_space z = true.
Proof.
  intros H. apply Forall_app in H as [_ H]. now inversion H.
Qed.

(** white space that ends where a character that is no white space ends is
    empty *)
Lemma spaces_before L w M x :
  spaces w -> is_space x = false -> L ++ w = M ++ [x] -> w = [] /\ L = M ++ [x].
Proof.
  intros Hw Hx E. induction w as [|z w' _] using rev_ind.
  - rewrite app_nil_r in E. auto.
  - exfalso. rewrite app_assoc in E. apply app_inj_tail in E as [_ ->].
    apply spaces_last in Hw. congruence.
Qed.

Ltac app_norm := repeat (rewrite <- ?app_assoc; cbn [app]).
Ltac app_norm_in H := repeat (rewrite <- ?app_assoc in H; cbn [app] in H).
Ltac by_assoc H := let H0 := fresh in pose proof H as H0; app_norm_in H0; app_norm; exact H0.

(** what stands before the marker of a directive, when it ends with
    [//# ]: the opener is [//] and nothing but [# ] follows it *)
Lemma head_of_line_directive L opener w1 c w2 pre :
  (opener = u "/*" \/ opener = u "//") ->
  spaces w1 -> at_or_hash c = true -> spaces w2 ->
  L ++ opener ++ w1 ++ c :: w2 = pre ++ u "//# " ->
  L = pre /\ opener = u "//" /\ w1 = [] /\ c = 35%N /\ w2 = [32%N].
Proof.
  intros Hop Hw1 Hc Hw2 E.
  change (u "//# ") with ([47%N; 47%N; 35%N; 32%N]) in E.
  induction w2 as [|z w2' _] using rev_ind.
  - exfalso.
    assert (E' : (L ++ opener ++ w1) ++ [c] = (pre ++ [47%N; 47%N; 35%N]) ++ [32%N])
      by by_assoc E.
    apply app_inj_tail in E' as [_ ->]. vm_compute in Hc. discriminate.
  - assert (E' : (L ++ opener ++ w1 ++ c :: w2') ++ [z]
                 = (pre ++ [47%N; 47%N; 35%N]) ++ [32%N]) by by_assoc E.
    apply app_inj_tail in E' as [E' ->].
    assert (Hw2' : w2' = []).
    { induction w2' as [|z' w2'' _] using rev_ind; [reflexivity|]. exfalso.
      assert (E'' : (L ++ opener ++ w1 ++ c :: w2'') ++ [z']
                    = (pre ++ [47%N; 47%N]) ++ [35%N]) by by_assoc E'.
      apply app_inj_tail in E'' as [_ ->].
      apply Forall_app in Hw2 as [Hw2 _]. apply spaces_last in Hw2.
      vm_compute in Hw2. discriminate. }
    subst w2'.
    assert (E'' : (L ++ opener ++ w1) ++ [c] = (pre ++ [47%N; 47%N]) ++ [35%N])
      by by_assoc E'.
    apply app_inj_tail in E'' as [E'' ->].
    assert (E3 : (L ++ opener) ++ w1 = (pre ++ [47%N]) ++ [47%N]) by by_assoc E''.
    apply spaces_before in E3 as [-> E3]; [|exact Hw1|reflexivity].
    assert (E4 : L ++ opener = pre ++ u "//").
    { rewrite E3, <- app_assoc. reflexivity. }
    apply app_same_length in E4 as [-> E4];
      [|destruct Hop as [-> | ->]; reflexivity].
    auto.
Qed.

(** A marker before the directive at the end cannot be the one of a match:
    the reference of the match would have to run over the blank of [//# ]. *)
Lemma earlier_marker_contra pre A D w3 w4 ref' R Y :
  pre ++ u "//# " = A ++ marker ++ D ->
  w3 ++ 61%N :: w4 ++ ref' ++ R = D ++ marker ++ Y ->
  spaces w3 -> spaces w4 -> no_space ref' -> ~ contains_marker R -> False.
Proof.
  intros EB EX Hw3 Hw4 Href HR.
  change (u "//# ") with ([47%N; 47%N; 35%N; 32%N]) in EB.
  assert (HD : exists l, D = l ++ [47%N; 47%N; 35%N; 32%N]).
  { rewrite app_assoc in EB. apply app_eq_app in EB as [l [[_ ED] | [EA ES]]].
    - exists l. exact ED.
    - induction l as [|z l' _] using rev_ind.
      + exists []. simpl in ES. auto.
      + exfalso.
        assert (Hz : z = 76%N).
        { change marker with (firstn 15 marker ++ [76%N]) in EA.
          rewrite !app_assoc in EA. now apply app_inj_tail in EA as [_ <-]. }
        assert (Hin : In z [47%N; 47%N; 35%N; 32%N]).
        { rewrite ES, <- app_assoc. apply in_elt. }
        subst z. simpl in Hin. intuition discriminate. }
  destruct HD as [l ->].
  set (P1 := w3 ++ 61%N :: w4) in *.
  assert (EX' : (P1 ++ ref') ++ R = (l ++ [47%N; 47%N; 35%N; 32%N]) ++ marker ++ Y).
  { unfold P1. by_assoc EX. }
  assert (HP1 : forall x, In x P1 -> is_space x = true \/ x = 61%N).
  { intros x Hx. unfold P1 in Hx. apply in_app_or in Hx as [Hx | [<- | Hx]]; auto.
    - left. exact (proj1 (Forall_forall _ _) Hw3 x Hx).
    - left. exact (proj1 (Forall_forall _ _) Hw4 x Hx). }
  destruct (Nat.le_gt_cases (length (P1 ++ ref')) (length l + 4)) as [Hle | Hgt].
  - apply HR. exists (skipn (length (P1 ++ ref')) (l ++ [47%N; 47%N; 35%N; 32%N])), Y.
    assert (HRk : skipn (length (P1 ++ ref')) ((P1 ++ ref') ++ R) = R).
    { rewrite skipn_app, Nat.sub_diag, skipn_all. reflexivity. }
    rewrite <- HRk at 1. rewrite EX', skipn_app.
    replace (length (P1 ++ ref') - length (l ++ [47%N; 47%N; 35%N; 32%N])) with 0
      by (rewrite (length_app l); simpl; lia).
    reflexivity.
  - assert (Hn : forall j x, j < 4 -> nth_error [47%N; 47%N; 35%N; 32%N] j = Some x ->
                             nth_error (P1 ++ ref') (length l + j) = Some x).
    { intros j x Hj Hx.
      rewrite <- (nth_error_app1 (P1 ++ ref') R) by lia. rewrite EX'.
      rewrite <- app_assoc. rewrite nth_error_app2 by lia.
      replace (length l + j - length l) with j by lia.
      rewrite nth_error_app1 by (simpl; lia). exact Hx. }
    pose proof (Hn 0 47%N ltac:(lia) eq_refl) as H0.
    pose proof (Hn 3 32%N ltac:(lia) eq_refl) as H3.
    rewrite Nat.add_0_r in H0.
    destruct (Nat.lt_ge_cases (length l) (length P1)) as [Hin | Hout].
    + rewrite nth_error_app1 in H0 by exact Hin. apply nth_error_In in H0.
      destruct (HP1 _ H0) as [Hs | Hs]; vm_compute in Hs; discriminate.
    + rewrite nth_error_app2 in H3 by lia. apply nth_error_In in H3.
      pose proof (proj1 (Forall_forall _ _) Href _ H3) as Hs.
      vm_compute in Hs. discriminate.
Qed.

(** A marker after the one of the directive at the end lies in its
    reference or after it. *)
Lemma later_marker_contra D X (ref tail : str) :
  61%N :: ref ++ tail = D ++ marker ++ X -> contains_marker (ref ++ tail).
Proof.
  intros E. destruct D as [|d D'].
  - apply (f_equal (hd 0%N)) in E. vm_compute in E. discriminate.
  - injection E as _ E. exists D', X. exact E.
Qed.

Lemma final_directive_unique pre ref tail opener closer i st' :
  ref <> [] -> no_space ref -> (tail = [] \/ exists t, tail = LF :: t) ->
  ~ contains_marker (ref ++ tail) ->
  ((opener = u "/*" /\ closer = Seq ws (Lit (u "*/"))) \/
   (opener = u "//" /\ closer = line_end)) ->
  i <= length (pre ++ u "//# sourceMappingURL=" ++ ref ++ tail) ->
  matches (Seq (Lit opener) (Seq baseRegex closer))
          (MState i (skipn i (pre ++ u "//# sourceMappingURL=" ++ ref ++ tail)) []) st' ->
  i = length pre /\ get_cap 1 (caps st') = Some ref /\
  firstn (pos st' - i) (skipn i (pre ++ u "//# sourceMappingURL=" ++ ref ++ tail))
  = u "//# sourceMappingURL=" ++ ref ++ firstn 1 tail.
Proof.
  intros Hne Href Htail Hnom Hoc Hi Hm.
  set (text := pre ++ u "//# sourceMappingURL=" ++ ref ++ tail) in *.
  apply directive_match_shape in Hm
    as (w1 & c & w2 & w3 & w4 & ref' & closed & p & Hw1 & Hc & Hw2 & Hw3 & Hw4 & Href'
        & E & P & Hno & Ep & Ecaps & Hclose).
  assert (Etext : (firstn i text ++ opener ++ w1 ++ c :: w2) ++ marker
                    ++ (w3 ++ 61%N :: w4 ++ ref' ++ closed ++ rest st')
                  = (pre ++ u "//# ") ++ marker ++ (61%N :: ref ++ tail)).
  { pose proof (firstn_skipn i text) as Hfs. rewrite E in Hfs. unfold text in Hfs at 2.
    change (u "//# sourceMappingURL=") with (u "//# " ++ marker ++ [61%N]) in Hfs.
    by_assoc Hfs. }
  apply marker_align in Etext as [[EA EX] | [(D & EB & EX) | (D & EA & EY)]].
  2: { exfalso. exact (earlier_marker_contra pre _ D w3 w4 ref' (closed ++ rest st') _
                         EB EX Hw3 Hw4 Href' Hno). }
  2: { exfalso. apply Hnom. exact (later_marker_contra D _ ref tail EY). }
  assert (Hop : opener = u "/*" \/ opener = u "//") by (destruct Hoc as [[-> _] | [-> _]]; auto).
  apply head_of_line_directive in EA as (Epre & -> & -> & -> & ->); auto.
  assert (Hclosed : closer = line_end).
  { destruct Hoc as [[Hbad _] | [_ ->]]; [discriminate Hbad | reflexivity]. }
  subst closer.
  assert (Ei : i = length pre).
  { rewrite <- Epre. rewrite length_firstn. lia. }
  (* nothing but the reference between [=] and the end of the line *)
  destruct w3 as [|s3 w3'].
  2: { exfalso. injection EX as -> _. apply Forall_inv in Hw3.
       vm_compute in Hw3. discriminate. }
  cbn [app] in EX. injection EX as EX.
  destruct ref as [|r0 ref0]; [congruence|].
  assert (Hr0 : is_space r0 = false).
  { pose proof (Forall_inv Href) as Hr. unfold non_space in Hr.
    now destruct (is_space r0). }
  destruct w4 as [|s4 w4'].
  2: { exfalso. injection EX as -> _. apply Forall_inv in Hw4. congruence. }
  cbn [app] in EX. rewrite <- Ep in EX.
  assert (Hrp : ref' = r0 :: ref0 /\ rest p = tail).
  { change (r0 :: ref0 ++ tail) with ((r0 :: ref0) ++ tail) in EX.
    apply app_eq_app in EX as [l [[E1 E2] | [E1 E2]]].
    - destruct l as [|x l'].
      + rewrite app_nil_r in E1. simpl in E2. auto.
      + exfalso. destruct Htail as [-> | [t ->]]; [discriminate|].
        injection E2 as <- _. rewrite E1 in Href'.
        apply Forall_app in Href' as [_ H']. apply Forall_inv in H'.
        vm_compute in H'. discriminate.
    - destruct l as [|x l'].
      + rewrite app_nil_r in E1. simpl in E2. auto.
      + exfalso.
        assert (Hx : is_space x = false).
        { rewrite E1 in Href. apply Forall_app in Href as [_ H'].
          apply Forall_inv in H'. unfold non_space in H'.
          now destruct (is_space x). }
        destruct Hclose as [[_ Hnil] | [(c' & tl' & Ec' & Hc' & _) |
                                        (mid & (c' & tl' & Ec' & Hc' & _) & _)]].
        * rewrite E2 in Hnil. discriminate.
        * rewrite E2 in Ec'. injection Ec' as <- _. apply N.eqb_eq in Hc'. subst x.
          vm_compute in Hx. discriminate.
        * rewrite E2 in Ec'. injection Ec' as <- _. apply N.eqb_eq in Hc'. subst x.
          vm_compute in Hx. discriminate. }
  destruct Hrp as [-> Hp].
  assert (Hcl : closed = firstn 1 tail).
  { rewrite Hp in Ep.
    destruct Hclose as [[-> Hnil] | [(c' & tl' & Ec' & Hc' & ->) |
                                     (mid & (c' & tl' & Ec' & Hc' & _) & _)]].
    - rewrite Hp in Hnil. rewrite Hnil in Ep |- *.
      symmetry in Ep. apply app_eq_nil in Ep as [-> _]. reflexivity.
    - rewrite Hp in Ec'. apply N.eqb_eq in Hc'. subst c'. cbn [rest] in Ep.
      rewrite Ec' in Ep |- *. simpl.
      change (LF :: tl') with ([LF] ++ tl') in Ep at 1.
      apply app_inv_tail in Ep. auto.
    - exfalso. rewrite Hp in Ec'. apply N.eqb_eq in Hc'. subst c'.
      destruct Htail as [-> | [t ->]]; discriminate. }
  split; [exact Ei|]. split.
  - rewrite (group_free_caps line_end _ _ eq_refl Hclose), Ecaps. reflexivity.
  - rewrite P, E.
    match goal with |- firstn (_ + length ?w - _) _ = _ =>
      replace (i + length w - i) with (length w) by lia end.
    rewrite firstn_app, Nat.sub_diag, firstn_all, firstn_O, app_nil_r, Hcl.
    reflexivity.
Qed.

Lemma final_directive_matches pre ref tail :
  no_space ref -> (tail = [] \/ exists t, tail = LF :: t) -> ~ contains_marker tail ->
  exists st',
    matches regex2
      (MState (length pre)
              (skipn (length pre) (pre ++ u "//# sourceMappingURL=" ++ ref ++ tail)) [])
      st'.
Proof.
  intros Href Htail Hno.
  rewrite skipn_app, Nat.sub_diag, skipn_all. cbn [app skipn].
  change (u "//# sourceMappingURL=")
    with (u "//" ++ 35%N :: 32%N :: marker ++ [61%N]).
  set (n := length pre).
  set (p := MState (S (S (S (n + 2)) + 16) + length ref) tail [(1, ref)]).
  assert (Hend : exists st', matches line_end p st').
  { destruct Htail as [Ht | [t Ht]].
    - exists p. left. split; [reflexivity | exact Ht].
    - eexists. right. left. exists LF, t. split; [exact Ht|]. split; reflexivity. }
  destruct Hend as [st' Hend]. exists st'.
  exists (MState (n + 2) (35%N :: 32%N :: marker ++ 61%N :: ref ++ tail) []). split.
  { apply matches_Lit. eexists. split; [|reflexivity]. cbn [rest]. app_norm. reflexivity. }
  exists p. split; [|exact Hend].
  apply baseRegex_with_split. exists p. split.
  - exists (MState (n + 2) (35%N :: 32%N :: marker ++ 61%N :: ref ++ tail) []).
    split; [apply star_done|].
    exists (MState (S (n + 2)) (32%N :: marker ++ 61%N :: ref ++ tail) []).
    split; [exists 35%N, (32%N :: marker ++ 61%N :: ref ++ tail); auto|].
    exists (MState (S (S (n + 2))) (marker ++ 61%N :: ref ++ tail) []).
    split.
    { eapply star_step; [exists 32%N, (marker ++ 61%N :: ref ++ tail); auto
                        | cbn [rest length]; lia | apply star_done]. }
    exists (MState (S (S (n + 2)) + 16) (61%N :: ref ++ tail) []).
    split; [apply matches_Lit; exists (61%N :: ref ++ tail); auto|].
    exists (MState (S (S (n + 2)) + 16) (61%N :: ref ++ tail) []).
    split; [apply star_done|].
    exists (MState (S (S (S (n + 2)) + 16)) (ref ++ tail) []).
    split; [exists 61%N, (ref ++ tail); auto|].
    exists (MState (S (S (S (n + 2)) + 16)) (ref ++ tail) []).
    split; [apply star_done|].
    exists p. split; [|reflexivity].
    exists (MState (S (S (S (n + 2)) + 16) + length ref) tail []). split.
    + apply star_Chr. exists ref. auto.
    + unfold p. cbn [pos rest caps]. f_equal. f_equal. f_equal.
      replace (S (S (S (n + 2)) + 16) + length ref - S (S (S (n + 2)) + 16))
        with (length ref) by lia.
      rewrite firstn_app, Nat.sub_diag, firstn_all, firstn_O, app_nil_r. reflexivity.
  - split; [reflexivity|]. intros x (mid & Hs & Hl).
    apply star_Chr in Hs as (w & _ & Ew & Emid).
    apply matches_Lit in Hl as (tl & El & _).
    apply Hno. exists w, tl. unfold p in Ew. cbn [rest] in Ew.
    rewrite El in Ew. exact Ew.
Qed.

Lemma line_directive_found (pre ref tail : str) :
  ref <> [] -> no_space ref -> (tail = [] \/ exists t, tail = LF :: t) ->
  ~ contains_marker (ref ++ tail) ->
  find_directive (pre ++ u "//# sourceMappingURL=" ++ ref ++ tail) =
    Some (MatchResult (length pre)
            (u "//# sourceMappingURL=" ++ ref ++ firstn 1 tail) (Some ref)).
Proof.
  intros Hne Href Htail Hno.
  destruct (find_directive _) as [mt|] eqn:E.
  - apply found_match in E as (opener & closer & st' & Hoc & Hm & Hw & Hg & Hi).
    assert (Hoc' : (opener = u "/*" /\ closer = Seq ws (Lit (u "*/"))) \/
                   (opener = u "//" /\ closer = line_end)).
    { destruct Hoc as [H | (H1 & H2 & _)]; auto. }
    destruct (final_directive_unique pre ref tail opener closer (index mt) st'
                Hne Href Htail Hno Hoc' Hi Hm) as (Ei & Ecap & Ewhole).
    destruct mt as [i w g]. cbn [index whole group1] in *.
    rewrite Ewhole in Hw. rewrite Ecap in Hg. subst. reflexivity.
  - exfalso.
    assert (Hno' : ~ contains_marker tail).
    { intros (a & b & ->). apply Hno. exists (ref ++ a), b. now rewrite app_assoc. }
    destruct (final_directive_matches pre ref tail Href Htail Hno') as [st' Hm].
    destruct (exec_complete regex2 (pre ++ u "//# sourceMappingURL=" ++ ref ++ tail)
                (length pre) st') as [mr Hmr]; [|exact Hm|].
    + rewrite length_app. lia.
    + unfold find_directive in E. destruct (exec regex1 _); congruence.
Qed.

(** X3: a line directive [//# sourceMappingURL=ref] at the end of a text, or
    followed by a line feed and text without marker, is the directive found,
    whatever stands before it, when [ref] is not empty and has neither white
    space nor the marker in it: the match starts at the directive, spans it
    and its line feed, and the reference is [ref]. *)
Theorem final_line_directive_found (pre ref tail : str) :
  ref <> [] -> no_space ref -> (tail = [] \/ exists t, tail = LF :: t) ->
  ~ contains_marker (ref ++ tail) ->
  find_directive (pre ++ u "//# sourceMappingURL=" ++ ref ++ tail) =
    Some (MatchResult (length pre)
            (u "//# sourceMappingURL=" ++ ref ++ firstn 1 tail) (Some ref)).
Proof.
  intros Hne Href Htail Hno.
  destruct (find_directive _) as [mt|] eqn:E.
  - apply found_match in E as (opener & closer & st' & Hoc & Hm & Hw & Hg & Hi).
    assert (Hoc' : (opener = u "/*" /\ closer = Seq ws (Lit (u "*/"))) \/
                   (opener = u "//" /\ closer = line_end)).
    { destruct Hoc as [H | (H1 & H2 & _)]; auto. }
    destruct (final_directive_unique pre ref tail opener closer (index mt) st'
                Hne Href Htail Hno Hoc' Hi Hm) as (Ei & Ecap & Ewhole).
    destruct mt as [i w g]. cbn [index whole group1] in *.
    rewrite Ewhole in Hw. rewrite Ecap in Hg. subst. reflexivity.
  - exfalso.
    assert (Hno' : ~ contains_marker tail).
    { intros (a & b & ->). apply Hno. exists (ref ++ a), b. now rewrite app_assoc. }
    destruct (final_directive_matches pre ref tail Href Htail Hno') as [st' Hm].
    destruct (exec_complete regex2 (pre ++ u "//# sourceMappingURL=" ++ ref ++ tail)
                (length pre) st') as [mr Hmr]; [|exact Hm|].
    + rewrite length_app. lia.
    + unfold find_directive in E. destruct (exec regex1 _); congruence.
Qed.

Lemma final_line_directive_found_witness :
  find_directive (u "with SourceMap" ++ [LF] ++ u "//# sourceMappingURL=bundle.js.map"
                    ++ [LF] ++ u "// comment") =
    Some (MatchResult 15 (u "//# sourceMappingURL=bundle.js.map" ++ [LF])
                      (Some (u "bundle.js.map"))).
Proof.
  apply (final_line_directive_found (u "with SourceMap" ++ [LF]) (u "bundle.js.map")
           ([LF] ++ u "// comment")).
  - discriminate.
  - repeat constructor.
  - right. eexists. reflexivity.
  - apply contains_markerP. vm_compute. reflexivity.
Defined.

(** ** Inline maps *)

Lemma plus_Chr p st st' :
  matches (Plus (Chr p)) st st' <->
  exists w, w <> [] /\ Forall (fun c => p c = true) w /\ rest st = w ++ rest st' /\
            st' = MState (pos st + length w) (rest st') (caps st).
Proof.
  split.
  - intros (mid & (c & tl & E & Hc & ->) & Hs).
    apply star_Chr in Hs as (w & Hw & Ew & Est). cbn [rest pos caps] in *.
    exists (c :: w). split; [discriminate|]. split; [constructor; auto|].
    split; [rewrite E, Ew; reflexivity|]. rewrite Est. cbn [length]. f_equal. lia.
  - intros (w & Hne & Hw & E & Est). destruct w as [|c w]; [congruence|].
    exists (MState (S (pos st)) (w ++ rest st') (caps st)). split.
    + exists c, (w ++ rest st'). split; [exact E|]. split; [|reflexivity].
      exact (Forall_inv Hw).
    + apply star_Chr. exists w. split; [exact (Forall_inv_tail Hw)|].
      split; [reflexivity|]. rewrite Est. cbn [rest pos caps length]. f_equal. lia.
Qed.

(** X4: what [regexDataUrl] takes for an inline map.  The reference holds
    [data:], a type of one or more characters other than [;] and line feed,
    possibly [;charset=] and a character set, then [;base64,]; the payload,
    [match[1]], follows at once and is one or more characters of the base64
    alphabet and at most two [=]. *)
Theorem regexDataUrl_payload (url : str) (dm : match_result) :
  exec regexDataUrl url = Some dm ->
  exists mime cs b pad after,
    skipn (index dm) url = whole dm ++ after /\
    whole dm = u "data:" ++ mime ++ cs ++ u ";base64," ++ b ++ pad /\
    group1 dm = Some (b ++ pad) /\
    mime <> [] /\ mime_chars mime /\
    (cs = [] \/ exists charset, cs = u ";charset=" ++ charset /\ charset <> [] /\
                                mime_chars charset) /\
    b <> [] /\ base64_chars b /\
    (pad = [] \/ pad = [61%N] \/ pad = [61%N; 61%N]).
Proof.
  intros H. apply exec_sound in H as (st' & _ & Hm & Hw & Hg).
  pose proof (matches_consumes _ _ _ Hm) as (consumed & Econs & Pcons).
  cbn [rest pos] in Econs, Pcons.
  destruct Hm as (s1 & H1 & s2 & H2 & s3 & H3 & s4 & H4 & mid & H5 & Est).
  apply matches_Lit in H1 as (t1 & E1 & ->).
  apply plus_Chr in H2 as (mime & Hmne & Hmime & E2 & Es2).
  assert (Hcs : exists cs, rest s2 = cs ++ rest s3 /\ caps s3 = caps s2 /\
              (cs = [] \/ exists charset, cs = u ";charset=" ++ charset /\
                                          charset <> [] /\ mime_chars charset)).
  { destruct H3 as [(sc & Hc1 & Hc2) | ->].
    - apply matches_Lit in Hc1 as (tc & Ec1 & ->).
      apply plus_Chr in Hc2 as (charset & Hcne & Hcs & Ec2 & Es3).
      exists (u ";charset=" ++ charset). cbn [rest pos caps] in *.
      split; [rewrite Ec1, Ec2, <- app_assoc; reflexivity|].
      split; [rewrite Es3; reflexivity|]. right. exists charset. auto.
    - exists []. auto. }
  destruct Hcs as (cs & E3 & C3 & Hcs).
  apply matches_Lit in H4 as (t4 & E4 & ->).
  pose proof (matches_consumes _ _ _ H5) as (wp & Ewp & Pwp).
  destruct H5 as (s5 & H5 & H6).
  apply plus_Chr in H5 as (b & Hbne & Hb & E5 & Es5).
  assert (Hpad : exists pad, rest s5 = pad ++ rest mid /\
              (pad = [] \/ pad = [61%N] \/ pad = [61%N; 61%N])).
  { destruct H6 as [(s6 & (c6 & tl6 & E6 & Hc6 & ->) & H7) | ->].
    - apply N.eqb_eq in Hc6. subst c6.
      destruct H7 as [(c7 & tl7 & E7 & Hc7 & ->) | ->]; cbn [rest] in *.
      + apply N.eqb_eq in Hc7. subst c7. exists [61%N; 61%N].
        rewrite E6, E7. auto.
      + exists [61%N]. rewrite E6. auto.
    - exists []. auto. }
  destruct Hpad as (pad & E6 & Hpad).
  cbn [rest pos caps] in *.
  assert (Eall : skipn (index dm) url =
                 (u "data:" ++ mime ++ cs ++ u ";base64," ++ b ++ pad) ++ rest mid).
  { rewrite E1, E2, E3, E4, E5, E6. app_norm. reflexivity. }
  assert (Erest : rest st' = rest mid) by (rewrite Est; reflexivity).
  assert (Ewhole : whole dm = u "data:" ++ mime ++ cs ++ u ";base64," ++ b ++ pad).
  { rewrite Hw, Pcons.
    replace (index dm + length consumed - index dm) with (length consumed) by lia.
    rewrite Econs, firstn_app, Nat.sub_diag, firstn_all, firstn_O, app_nil_r.
    rewrite Econs, Erest in Eall. now apply app_inv_tail in Eall. }
  exists mime, cs, b, pad, (rest mid).
  split; [rewrite Ewhole; exact Eall|]. split; [exact Ewhole|].
  split; [|auto 10].
  rewrite Hg, Est. cbn [caps get_cap Nat.eqb]. f_equal.
  rewrite Pwp.
  match goal with |- firstn (?a + _ - ?a) _ = _ =>
    replace (a + length wp - a) with (length wp) by lia end.
  rewrite Ewp, firstn_app, Nat.sub_diag, firstn_all, firstn_O, app_nil_r.
  rewrite E5, E6, app_assoc in Ewp. now apply app_inv_tail in Ewp.
Qed.

Lemma regexDataUrl_payload_witness :
  exists mime cs b pad after,
    skipn 0 (u "data:application/json;charset=utf-8;base64,e30=")
      = u "data:application/json;charset=utf-8;base64,e30=" ++ after /\
    u "data:application/json;charset=utf-8;base64,e30="
      = u "data:" ++ mime ++ cs ++ u ";base64," ++ b ++ pad /\
    Some (u "e30=") = Some (b ++ pad) /\
    mime <> [] /\ mime_chars mime /\
    (cs = [] \/ exists charset, cs = u ";charset=" ++ charset /\ charset <> [] /\
                                mime_chars charset) /\
    b <> [] /\ base64_chars b /\
    (pad = [] \/ pad = [61%N] \/ pad = [61%N; 61%N]).
Proof.
  apply (regexDataUrl_payload (u "data:application/json;charset=utf-8;base64,e30=")
           (MatchResult 0 (u "data:application/json;charset=utf-8;base64,e30=")
                        (Some (u "e30=")))).
  vm_compute. reflexivity.
Defined.

Lemma data_url_recognised a mime b0 z :
  mime <> [] -> mime_chars mime -> is_base64 b0 = true ->
  exists dm, exec regexDataUrl (a ++ u "data:" ++ mime ++ u ";base64," ++ b0 :: z) = Some dm.
Proof.
  intros Hne Hmime Hb0.
  set (url := a ++ u "data:" ++ mime ++ u ";base64," ++ b0 :: z).
  set (n := length a).
  set (s1 := MState (n + length (u "data:")) (mime ++ u ";base64," ++ b0 :: z) []).
  set (s2 := MState (n + length (u "data:") + length mime) (u ";base64," ++ b0 :: z) []).
  set (s4 := MState (pos s2 + length (u ";base64,")) (b0 :: z) []).
  set (mid := MState (S (pos s4)) z []).
  apply (exec_complete regexDataUrl url n
           (MState (pos mid) (rest mid)
                   ((1, firstn (pos mid - pos s4) (rest s4)) :: caps mid))).
  - unfold url, n. rewrite length_app. lia.
  - unfold url, n. rewrite skipn_app, Nat.sub_diag, skipn_all. cbn [app skipn].
    exists s1. split; [apply matches_Lit; eexists; split; reflexivity|].
    exists s2. split.
    { apply plus_Chr. exists mime. split; [exact Hne|]. split; [exact Hmime|].
      split; reflexivity. }
    exists s2. split; [right; reflexivity|].
    exists s4. split; [apply matches_Lit; eexists; split; reflexivity|].
    exists mid. split; [|reflexivity].
    exists mid. split; [|right; reflexivity].
    apply plus_Chr. exists [b0]. split; [discriminate|].
    split; [repeat constructor; exact Hb0|]. split; [reflexivity|].
    unfold mid. cbn [pos rest caps length]. f_equal. lia.
Qed.

(** X5: a reference [data:<type>;base64,<payload>] whose type is not empty
    and has neither [;] nor line feed, and whose payload begins with a
    character of the base64 alphabet, is always read as an inline map,
    whatever stands before [data:]: nothing is read from the file system and
    nothing registered; the sources are resolved against [this.context]; and
    the only error there can be is the one of the inline parse. *)
Theorem inline_reference_touches_no_file (h : Host) (context : str)
        (a mime : str) (b0 : cu) (z : str) :
  mime <> [] -> mime_chars mime -> is_base64 b0 = true ->
  let url := a ++ u "data:" ++ mime ++ u ";base64," ++ b0 :: z in
  fst (readSourceMap h context url) = [] /\
  match snd (readSourceMap h context url) with
  | inr (_, sourcesContext) => sourcesContext = context
  | inl e => is_inline_parse_warning e = true
  end.
Proof.
  intros Hne Hmime Hb0 url.
  destruct (data_url_recognised a mime b0 z Hne Hmime Hb0) as [dm Hdm].
  fold url in Hdm. unfold readSourceMap. rewrite Hdm.
  destruct (JSON_parse h _); split; reflexivity.
Qed.

Lemma inline_reference_touches_no_file_witness :
  fst (readSourceMap Examples.rooted_host Examples.fixtures
         (u "data:application/json;base64,e30=")) = [] /\
  match snd (readSourceMap Examples.rooted_host Examples.fixtures
               (u "data:application/json;base64,e30=")) with
  | inr (_, sourcesContext) => sourcesContext = Examples.fixtures
  | inl e => is_inline_parse_warning e = true
  end.
Proof.
  apply (inline_reference_touches_no_file Examples.rooted_host Examples.fixtures
           [] (u "application/json") 101%N (u "30=")).
  - discriminate.
  - repeat constructor.
  - reflexivity.
Defined.

(** ** The outcomes of the loader *)

Lemma readSourceMap_no_warning h context url :
  warnings (fst (readSourceMap h context url)) = [].
Proof.
  unfold readSourceMap.
  destruct (exec regexDataUrl url) as [dm|].
  - destruct (JSON_parse h _); reflexivity.
  - unfold readFile. destruct (resolveAbsolutePath h context url) as [ex | p];
      [reflexivity|]. simpl.
    destruct (fs_readFile h p) as [e | fileContent]; [reflexivity|]. simpl.
    destruct (JSON_parse h fileContent); reflexivity.
Qed.

(** [loadSourceMap] fails where [readSourceMap] fails, or on a value
    without an array [sources]; either way with the trace of
    [readSourceMap], before anything is done for a source. *)
Lemma loadSourceMap_failure h context url keep t ex :
  loadSourceMap h context url keep = (t, inl ex) ->
  readSourceMap h context url = (t, inl ex) \/
  exists typeError sourcesContext,
    ex = HostError typeError /\
    readSourceMap h context url = (t, inr (NoSourcesArray typeError, sourcesContext)).
Proof.
  unfold loadSourceMap. intros H.
  destruct (readSourceMap h context url)
    as [t1 [e | [[sourceMap | typeError] sourcesContext]]]; simpl in H.
  - injection H as -> ->. left. reflexivity.
  - exfalso. cbn [fst snd] in H.
    destruct (enrichSourceMap_runs h sourceMap sourcesContext keep) as (runs & E & _).
    rewrite E in H. discriminate.
  - rewrite app_nil_r in H. injection H as -> <-. right. eauto.
Qed.

(** X6: a loader run that returns no map returns the text it was given,
    and has emitted one warning when the text has a directive and none when
    it has not. *)
Theorem no_map_text_unchanged (h : Host) (context : str) (given : Options)
        (text : str) (inmap : option RawSourceMap) :
  map_out (snd (loader h context given text inmap)) = None ->
  res (snd (loader h context given text inmap)) = text /\
  length (warnings (fst (loader h context given text inmap)))
  = match find_directive text with Some _ => 1 | None => 0 end.
Proof.
  unfold loader. intros H.
  destruct text as [|c tl].
  - split; reflexivity.
  - destruct inmap as [m0|]; [discriminate H|].
    destruct (find_directive (c :: tl)) as [mt|] eqn:Hfd.
    + destruct (loadSourceMap h context (group1_of mt) _) as [t [ex | sourceMap]] eqn:El;
        [|discriminate H].
      split; [reflexivity|]. cbn [fst].
      pose proof (readSourceMap_no_warning h context (group1_of mt)) as Hw.
      apply loadSourceMap_failure in El as [El | (typeError & ctx & _ & El)];
        rewrite El in Hw; cbn [fst] in Hw;
        rewrite !warnings_app, Hw; destruct (has_cacheable h); reflexivity.
    + split; [reflexivity|]. destruct (has_cacheable h); reflexivity.
Qed.

Lemma no_map_text_unchanged_witness :
  res (snd (loader Examples.no_files Examples.fixtures (mkOptions None)
                   Examples.missing_map_text None)) = Examples.missing_map_text /\
  length (warnings (fst (loader Examples.no_files Examples.fixtures (mkOptions None)
                                Examples.missing_map_text None))) = 1.
Proof.
  apply (no_map_text_unchanged Examples.no_files Examples.fixtures (mkOptions None)
           Examples.missing_map_text None).
  vm_compute. reflexivity.
Defined.

(** X7: a map file that is read but is no JSON.  The file is registered as
    a dependency all the same, the warning is
    [Cannot parse SourceMap from <reference>: <cause>] with the reference as
    written in the directive, the text is returned unchanged and there is no
    map. *)
Theorem unparsable_map_file (h : Host) (context : str) (given : Options)
        (text : str) (mt : match_result) (p fileContent : str) (ex : host_error) :
  find_directive text = Some mt ->
  exec regexDataUrl (group1_of mt) = None ->
  resolveAbsolutePath h context (group1_of mt) = inr p ->
  fs_readFile h p = inr fileContent ->
  JSON_parse h fileContent = inl ex ->
  loader h context given text None =
    ((if has_cacheable h then [Cacheable] else [])
       ++ [ReadFile p true; AddDependency p;
           EmitWarning (JsError (u "Cannot parse SourceMap from " ++ group1_of mt
                                 ++ u ": " ++ exn_toString (HostError ex)))],
     mkLoaderResult text None).
Proof.
  intros Hfd Hdata Hp Hread Hparse.
  pose proof (find_directive_nonempty _ _ Hfd) as Hne.
  destruct text as [|c tl]; [congruence|].
  unfold loader. rewrite Hfd.
  unfold loadSourceMap, readSourceMap, readFile. rewrite Hdata, Hp. simpl.
  rewrite Hread. simpl. rewrite Hparse. reflexivity.
Qed.

Lemma unparsable_map_file_witness :
  loader MoreExamples.invalid_map_host Examples.fixtures (mkOptions None)
         MoreExamples.invalid_map_text None =
    ([Cacheable;
      ReadFile (u "/fixtures/invalid-source-map.map") true;
      AddDependency (u "/fixtures/invalid-source-map.map");
      EmitWarning (JsError (u "Cannot parse SourceMap from invalid-source-map.map: SyntaxError: Unexpected token"))],
     mkLoaderResult MoreExamples.invalid_map_text None).
Proof.
  refine (unparsable_map_file MoreExamples.invalid_map_host Examples.fixtures
            (mkOptions None) MoreExamples.invalid_map_text
            (MatchResult 15 (u "//#sourceMappingURL=invalid-source-map.map" ++ [LF])
               (Some (u "invalid-source-map.map")))
            (u "/fixtures/invalid-source-map.map") (u "{version:3,,}")
            Fixture.unexpected_token _ _ _ _ _); vm_compute; reflexivity.
Defined.

(** X8: a directive whose reference has a scheme other than [file:] and is
    no inline map.  Nothing is read, nothing registered; the one warning is
    [URL scheme not supported: <reference>]; the text is returned unchanged
    and there is no map. *)
Theorem unsupported_scheme_reference (h : Host) (context : str) (given : Options)
        (text : str) (mt : match_result) :
  find_directive text = Some mt ->
  exec regexDataUrl (group1_of mt) = None ->
  has_scheme (group1_of mt) ->
  startsWith FILE_SCHEME (group1_of mt) = false ->
  loader h context given text None =
    ((if has_cacheable h then [Cacheable] else [])
       ++ [EmitWarning (JsError (u "URL scheme not supported: " ++ group1_of mt))],
     mkLoaderResult text None).
Proof.
  intros Hfd Hdata Hs Hf.
  pose proof (find_directive_nonempty _ _ Hfd) as Hne.
  destruct text as [|c tl]; [congruence|].
  apply regexUrl_test_spec in Hs.
  unfold loader. rewrite Hfd.
  unfold loadSourceMap, readSourceMap, resolveAbsolutePath. rewrite Hdata, Hs, Hf.
  reflexivity.
Qed.

Lemma unsupported_scheme_reference_witness :
  loader Examples.no_files Examples.fixtures (mkOptions None)
         MoreExamples.remote_reference_text None =
    ([Cacheable;
      EmitWarning (JsError (u "URL scheme not supported: http://example.com/bundle.js.map"))],
     mkLoaderResult MoreExamples.remote_reference_text None).
Proof.
  refine (unsupported_scheme_reference Examples.no_files Examples.fixtures
            (mkOptions None) MoreExamples.remote_reference_text
            (MatchResult 0 MoreExamples.remote_reference_text
               (Some (u "http://example.com/bundle.js.map"))) _ _ _ _).
  - vm_compute. reflexivity.
  - vm_compute. reflexivity.
  - apply regexUrl_test_spec. vm_compute. reflexivity.
  - vm_compute. reflexivity.
Defined.

Lemma replace_first_removes pat : forall text i,
  startsWith pat (skipn i text) = true ->
  exists j,
    j <= i /\ startsWith pat (skipn j text) = true /\
    (forall k, k < j -> startsWith pat (skipn k text) = false) /\
    replace_first pat text = excise text j (length pat).
Proof.
  induction text as [|c tl IH]; intros i Hi.
  - exists 0. rewrite skipn_nil in Hi. repeat split; [lia | exact Hi | intros; lia |].
    simpl. rewrite Hi. reflexivity.
  - destruct (startsWith pat (c :: tl)) eqn:H0.
    + exists 0. repeat split; [lia | exact H0 | intros; lia |].
      simpl replace_first. rewrite H0. reflexivity.
    + destruct i as [|i]; [simpl in Hi; congruence|].
      destruct (IH i Hi) as (j & Hj & Hat & Hbefore & Hrep).
      exists (S j). repeat split; [lia | exact Hat | |].
      * intros [|k] Hk; [exact H0 | apply Hbefore; lia].
      * simpl replace_first. rewrite H0. rewrite Hrep. reflexivity.
Qed.

(** X9: a loader run that returns a map.  The text has a directive, and the
    text returned is the input without one occurrence of the matched text:
    its first occurrence, which starts at or before the match.  The text
    returned is shorter than the input by the length of the matched text. *)
Theorem rewritten_text (h : Host) (context : str) (given : Options)
        (text : str) (sourceMap : RawSourceMap) :
  map_out (snd (loader h context given text None)) = Some sourceMap ->
  exists mt j,
    find_directive text = Some mt /\ j <= index mt /\
    startsWith (whole mt) (skipn j text) = true /\
    (forall k, k < j -> startsWith (whole mt) (skipn k text) = false) /\
    res (snd (loader h context given text None)) = excise text j (length (whole mt)) /\
    length (res (snd (loader h context given text None))) + length (whole mt)
    = length text.
Proof.
  intros H.
  assert (Hloader : exists mt, find_directive text = Some mt /\
            res (snd (loader h context given text None))
            = replace_first (whole mt) text).
  { unfold loader in *. destruct text as [|c tl]; [discriminate H|].
    destruct (find_directive (c :: tl)) as [mt|]; [|discriminate H].
    destruct (loadSourceMap h context (group1_of mt) _) as [t [ex | sm]];
      [discriminate H|].
    exists mt. split; reflexivity. }
  destruct Hloader as (mt & Hfd & Hres). exists mt.
  assert (Hat : startsWith (whole mt) (skipn (index mt) text) = true).
  { apply find_directive_sound in Hfd as (e & _ & _ & Hw & _).
    apply startsWith_spec. exists (skipn (e - index mt) (skipn (index mt) text)).
    rewrite Hw. symmetry. apply firstn_skipn. }
  destruct (replace_first_removes (whole mt) text (index mt) Hat)
    as (j & Hj & Hatj & Hbefore & Hrep).
  exists j. split; [exact Hfd|]. split; [exact Hj|]. split; [exact Hatj|].
  split; [exact Hbefore|]. rewrite Hres, Hrep. split; [reflexivity|].
  apply startsWith_spec in Hatj as [rest_text Hsk].
  assert (Hlen : length (skipn j text) = length (whole mt) + length rest_text).
  { rewrite Hsk. apply length_app. }
  rewrite length_skipn in Hlen.
  unfold excise. rewrite length_app, length_firstn, length_skipn. lia.
Qed.

Lemma rewritten_text_witness :
  exists mt j,
    find_directive Examples.twice_text = Some mt /\ j <= index mt /\
    startsWith (whole mt) (skipn j Examples.twice_text) = true /\
    (forall k, k < j -> startsWith (whole mt) (skipn k Examples.twice_text) = false) /\
    res (snd (loader Examples.rooted_host Examples.fixtures (mkOptions None)
                     Examples.twice_text None))
    = excise Examples.twice_text j (length (whole mt)) /\
    length (res (snd (loader Examples.rooted_host Examples.fixtures (mkOptions None)
                             Examples.twice_text None)))
    + length (whole mt) = length Examples.twice_text.
Proof.
  eapply (rewritten_text Examples.rooted_host Examples.fixtures (mkOptions None)
            Examples.twice_text).
  vm_compute. reflexivity.
Defined.

(** X10: a map read from a file whose text parses to an object with an
    array [sources].  The file is read and registered first, then the map is
    enriched with the directory of the map file, not the directory of the
    asset, as the base of its sources; the result is the text after
    [replace] and the enriched map. *)
Theorem file_map_loaded (h : Host) (context : str) (given : Options)
        (text : str) (mt : match_result) (p fileContent : str)
        (sourceMap : RawSourceMap) :
  find_directive text = Some mt ->
  exec regexDataUrl (group1_of mt) = None ->
  resolveAbsolutePath h context (group1_of mt) = inr p ->
  fs_readFile h p = inr fileContent ->
  JSON_parse h fileContent = inr (SourceMapObject sourceMap) ->
  exists t out,
    enrichSourceMap h sourceMap (path_dirname h p)
      (truthy_option (keepRelativeSources (assign_options DEFAULT_OPTIONS given)))
    = (t, inr out) /\
    loader h context given text None =
      ((if has_cacheable h then [Cacheable] else [])
         ++ ReadFile p true :: AddDependency p :: t,
       mkLoaderResult (replace_first (whole mt) text) (Some out)).
Proof.
  intros Hfd Hdata Hp Hread Hparse.
  pose proof (find_directive_nonempty _ _ Hfd) as Hne.
  destruct text as [|c tl]; [congruence|].
  set (keep := truthy_option (keepRelativeSources (assign_options DEFAULT_OPTIONS given))).
  destruct (enrichSourceMap_runs h sourceMap (path_dirname h p) keep) as (runs & E & _).
  do 2 eexists. split; [exact E|].
  unfold loader. rewrite Hfd. fold keep.
  unfold loadSourceMap, readSourceMap, readFile. rewrite Hdata, Hp. simpl.
  rewrite Hread. simpl. rewrite Hparse. simpl. rewrite E. reflexivity.
Qed.

Lemma file_map_loaded_witness :
  exists t out,
    enrichSourceMap Examples.rooted_host Examples.rooted_map (u "/fixtures") false
    = (t, inr out) /\
    loader Examples.rooted_host Examples.fixtures (mkOptions None)
           Examples.rooted_text None =
      ([Cacheable] ++ ReadFile (u "/fixtures/bundle.js.map") true
                   :: AddDependency (u "/fixtures/bundle.js.map") :: t,
       mkLoaderResult (u "var a = 1;" ++ [LF]) (Some out)).
Proof.
  refine (file_map_loaded Examples.rooted_host Examples.fixtures (mkOptions None)
            Examples.rooted_text
            (MatchResult 11 (u "//# sourceMappingURL=bundle.js.map")
                         (Some (u "bundle.js.map")))
            (u "/fixtures/bundle.js.map") Examples.rooted_json Examples.rooted_map
            _ _ _ _ _); vm_compute; reflexivity.
Defined.

(** X11: an inline map whose decoded payload parses to an object with an
    array [sources].  Nothing is read or registered for the map itself; the
    map is enriched with [this.context] as the base of its sources; the
    result is the text after [replace] and the enriched map. *)
Theorem inline_map_loaded (h : Host) (context : str) (given : Options)
        (text : str) (mt dm : match_result) (sourceMap : RawSourceMap) :
  find_directive text = Some mt ->
  exec regexDataUrl (group1_of mt) = Some dm ->
  JSON_parse h (base64_toString h (group1_of dm)) = inr (SourceMapObject sourceMap) ->
  exists t out,
    enrichSourceMap h sourceMap context
      (truthy_option (keepRelativeSources (assign_options DEFAULT_OPTIONS given)))
    = (t, inr out) /\
    loader h context given text None =
      ((if has_cacheable h then [Cacheable] else []) ++ t,
       mkLoaderResult (replace_first (whole mt) text) (Some out)).
Proof.
  intros Hfd Hdata Hparse.
  pose proof (find_directive_nonempty _ _ Hfd) as Hne.
  destruct text as [|c tl]; [congruence|].
  set (keep := truthy_option (keepRelativeSources (assign_options DEFAULT_OPTIONS given))).
  destruct (enrichSourceMap_runs h sourceMap context keep) as (runs & E & _).
  do 2 eexists. split; [exact E|].
  unfold loader. rewrite Hfd. fold keep.
  unfold loadSourceMap, readSourceMap. rewrite Hdata, Hparse. simpl.
  rewrite E. reflexivity.
Qed.

Lemma inline_map_loaded_witness :
  exists t out,
    enrichSourceMap MoreExamples.inline_host Examples.rooted_map Examples.fixtures false
    = (t, inr out) /\
    loader MoreExamples.inline_host Examples.fixtures (mkOptions None)
           MoreExamples.inline_text None =
      ([Cacheable] ++ t, mkLoaderResult (u "var a = 1;" ++ [LF]) (Some out)).
Proof.
  refine (inline_map_loaded MoreExamples.inline_host Examples.fixtures (mkOptions None)
            MoreExamples.inline_text
            (MatchResult 11 (u "//# sourceMappingURL=" ++ MoreExamples.inline_reference)
                         (Some MoreExamples.inline_reference))
            (MatchResult 0 MoreExamples.inline_reference
                         (Some MoreExamples.inline_payload))
            Examples.rooted_map _ _ _); vm_compute; reflexivity.
Defined.

(** X19: a map that is JSON but has no array [sources] (the object without
    members, an index map).  [loadSourceMap] throws before it looks at any
    source; the loader emits the [TypeError] of the runtime as it is, as the
    one warning, and returns the text unchanged with no map.  What was done
    to get at the map stays done: a map file has been read and is
    registered as a dependency; for an inline map nothing has happened. *)
Theorem map_without_sources (h : Host) (context : str) (given : Options)
        (text : str) (mt : match_result) (typeError : host_error) :
  find_directive text = Some mt ->
  (forall dm,
     exec regexDataUrl (group1_of mt) = Some dm ->
     JSON_parse h (base64_toString h (group1_of dm)) = inr (NoSourcesArray typeError) ->
     loader h context given text None =
       ((if has_cacheable h then [Cacheable] else [])
          ++ [EmitWarning (HostError typeError)],
        mkLoaderResult text None)) /\
  (forall p fileContent,
     exec regexDataUrl (group1_of mt) = None ->
     resolveAbsolutePath h context (group1_of mt) = inr p ->
     fs_readFile h p = inr fileContent ->
     JSON_parse h fileContent = inr (NoSourcesArray typeError) ->
     loader h context given text None =
       ((if has_cacheable h then [Cacheable] else [])
          ++ [ReadFile p true; AddDependency p; EmitWarning (HostError typeError)],
        mkLoaderResult text None)).
Proof.
  intros Hfd.
  pose proof (find_directive_nonempty _ _ Hfd) as Hne.
  destruct text as [|c tl]; [congruence|].
  split.
  - intros dm Hdata Hparse. unfold loader. rewrite Hfd.
    unfold loadSourceMap, readSourceMap. rewrite Hdata, Hparse. reflexivity.
  - intros p fileContent Hdata Hp Hread Hparse. unfold loader. rewrite Hfd.
    unfold loadSourceMap, readSourceMap, readFile. rewrite Hdata, Hp. simpl.
    rewrite Hread. simpl. rewrite Hparse. reflexivity.
Qed.

Lemma map_without_sources_witness :
  loader Examples.rooted_host Examples.fixtures (mkOptions None)
         MoreExamples.empty_inline_text None =
    ([Cacheable; EmitWarning (HostError Fixture.cannot_read_map)],
     mkLoaderResult MoreExamples.empty_inline_text None) /\
  loader Examples.empty_map_host Examples.fixtures (mkOptions None)
         Examples.empty_map_text None =
    ([Cacheable;
      ReadFile (u "/fixtures/empty.map") true;
      AddDependency (u "/fixtures/empty.map");
      EmitWarning (HostError Fixture.cannot_read_map)],
     mkLoaderResult Examples.empty_map_text None).
Proof.
  split.
  - refine (proj1 (map_without_sources Examples.rooted_host Examples.fixtures
                     (mkOptions None) MoreExamples.empty_inline_text
                     (MatchResult 11
                        (u "//# sourceMappingURL=data:application/json;base64,e30=")
                        (Some (u "data:application/json;base64,e30=")))
                     Fixture.cannot_read_map _)
                  (MatchResult 0 (u "data:application/json;base64,e30=")
                     (Some (u "e30="))) _ _); vm_compute; reflexivity.
  - refine (proj2 (map_without_sources Examples.empty_map_host Examples.fixtures
                     (mkOptions None) Examples.empty_map_text
                     (MatchResult 11 (u "//# sourceMappingURL=empty.map")
                        (Some (u "empty.map")))
                     Fixture.cannot_read_map _)
                  (u "/fixtures/empty.map") (u "{}") _ _ _ _); vm_compute; reflexivity.
Defined.

(** ** The enriched map *)

Lemma loadSource_value h sourcesContext contents s i :
  snd (loadSource h sourcesContext contents s i) =
  inr (mkSourceAndContent (resolved_source h sourcesContext s)
                          (resolved_content h sourcesContext contents s i)).
Proof.
  unfold loadSource, resolved_source, resolved_content, readFile.
  destruct (resolveAbsolutePath h sourcesContext s) as [ex | p].
  - destruct (content_at contents i); reflexivity.
  - destruct (content_at contents i); destruct (fs_readFile h p); reflexivity.
Qed.

Lemma mapM_index_loadSource h sourcesContext contents : forall l i,
  exists t rs,
    mapM_index (loadSource h sourcesContext contents) i l = (t, inr rs) /\
    map source rs = map (resolved_source h sourcesContext) l /\
    map content rs = resolved_contents h sourcesContext contents l i /\
    length (warnings t) = count_failing h sourcesContext contents l i.
Proof.
  induction l as [|s l IH]; intros i.
  - exists [], []. repeat split.
  - destruct (loadSource_run h sourcesContext contents s i) as (t1 & r & E1 & Hw & _).
    pose proof (loadSource_value h sourcesContext contents s i) as Hv.
    rewrite E1 in Hv. cbn [snd] in Hv. injection Hv as ->.
    destruct (IH (S i)) as (t2 & rs & E2 & Hs & Hc & Hw2).
    exists (t1 ++ t2), (mkSourceAndContent (resolved_source h sourcesContext s)
                          (resolved_content h sourcesContext contents s i) :: rs).
    split; [|split; [|split]].
    + simpl. unfold bind at 1. rewrite E1. unfold bind at 1. rewrite E2. simpl.
      rewrite app_nil_r. reflexivity.
    + simpl. now rewrite Hs.
    + simpl. now rewrite Hc.
    + rewrite warnings_app, length_app, Hw, Hw2. reflexivity.
Qed.

(** X12: the enriched map as a function of the map and of what the host
    answers.  It keeps [version], [file], [names] and [mappings] and has no
    [sourceRoot]; without [keepRelativeSources] each source is its resolved
    path or, where it does not resolve, the string with the root before it;
    each content is the string the map held, else the text of the file at
    the resolved path, else [null] when that file cannot be read, else, when
    the path does not resolve, what the map held. *)
Theorem enrichSourceMap_value (h : Host) (sourceMap : RawSourceMap)
        (sourcesContext : str) (keep : bool) :
  snd (enrichSourceMap h sourceMap sourcesContext keep) =
  inr (mkRawSourceMap (version sourceMap) (file sourceMap) None
         (if keep then sources sourceMap
          else map (resolved_source h sourcesContext) (root_prefixed sourceMap))
         (names sourceMap)
         (Some (resolved_contents h sourcesContext (contents_of sourceMap)
                                  (root_prefixed sourceMap) 0))
         (mappings sourceMap)).
Proof.
  unfold enrichSourceMap. cbv zeta.
  destruct (mapM_index_loadSource h sourcesContext (contents_of sourceMap)
              (root_prefixed sourceMap) 0) as (t & rs & E & Hs & Hc & _).
  unfold root_prefixed in *. unfold bind. rewrite E. cbn [snd ret].
  rewrite Hs, Hc. destruct keep; reflexivity.
Qed.

(** X13: the warnings of an enrichment are as many as the sources that
    fail. *)
Theorem enrichSourceMap_warnings (h : Host) (sourceMap : RawSourceMap)
        (sourcesContext : str) (keep : bool) :
  length (warnings (fst (enrichSourceMap h sourceMap sourcesContext keep))) =
  count_failing h sourcesContext (contents_of sourceMap) (root_prefixed sourceMap) 0.
Proof.
  unfold enrichSourceMap. cbv zeta.
  destruct (mapM_index_loadSource h sourcesContext (contents_of sourceMap)
              (root_prefixed sourceMap) 0) as (t & rs & E & _ & _ & Hw).
  unfold root_prefixed in *. unfold bind. rewrite E. cbn [fst ret].
  rewrite app_nil_r. exact Hw.
Qed.

Lemma resolved_contents_nth h sourcesContext contents : forall l i0 j s,
  nth_error l j = Some s ->
  nth_error (resolved_contents h sourcesContext contents l i0) j
  = Some (resolved_content h sourcesContext contents s (i0 + j)).
Proof.
  induction l as [|a l IH]; intros i0 [|j] s H; try discriminate; simpl in *.
  - injection H as ->. now rewrite Nat.add_0_r.
  - rewrite (IH (S i0) j s H). f_equal. f_equal. lia.
Qed.

(** X14: content that the map holds is never replaced: where
    [sourcesContent[i]] of the map is a string and the map has a source
    [i], [sourcesContent[i]] of the enriched map is the same string,
    whether the path of the source resolves or not and whatever is on
    disk. *)
Theorem held_content_kept (h : Host) (sourceMap : RawSourceMap)
        (sourcesContext : str) (keep : bool) (i : nat) (c : str) :
  nth_error (contents_of sourceMap) i = Some (JString c) ->
  i < length (sources sourceMap) ->
  exists out cs,
    snd (enrichSourceMap h sourceMap sourcesContext keep) = inr out /\
    sourcesContent out = Some cs /\ nth_error cs i = Some (JString c).
Proof.
  intros Hc Hi. unfold enrichSourceMap. cbv zeta.
  destruct (mapM_index_loadSource h sourcesContext (contents_of sourceMap)
              (root_prefixed sourceMap) 0) as (t & rs & E & _ & Hcs & _).
  unfold root_prefixed in *. unfold bind. rewrite E. cbn [snd ret].
  do 2 eexists. split; [reflexivity|]. split; [reflexivity|]. cbn [sourcesContent].
  rewrite Hcs.
  destruct (nth_error (sources sourceMap) i) as [s|] eqn:Es;
    [|apply nth_error_None in Es; lia].
  rewrite (resolved_contents_nth h sourcesContext (contents_of sourceMap) _ 0 i
             (sourcePrefix_of sourceMap ++ s)).
  - unfold resolved_content, content_at. cbn [Nat.add].
    rewrite (nth_error_nth _ _ JUndefined Hc). reflexivity.
  - rewrite nth_error_map. unfold str in *. rewrite Es. reflexivity.
Qed.

Lemma held_content_kept_witness :
  exists out cs,
    snd (enrichSourceMap Examples.no_files MoreExamples.two_sources_map
                         Examples.fixtures false) = inr out /\
    sourcesContent out = Some cs /\ nth_error cs 0 = Some (JString (u "let a = 1")).
Proof.
  apply (held_content_kept Examples.no_files MoreExamples.two_sources_map
           Examples.fixtures false 0 (u "let a = 1")).
  - reflexivity.
  - simpl. lia.
Defined.

(** ** What ends a line directive *)

(** A match on a text with [//# sourceMappingURL=ref] in it, no marker
    after: it is the line pattern at that place, and what remains after its
    reference is what remains of [ref] and the text after it. *)
Lemma line_directive_aligned pre ref tail opener closer i st' :
  ref <> [] -> no_space ref -> ~ contains_marker (ref ++ tail) ->
  ((opener = u "/*" /\ closer = Seq ws (Lit (u "*/"))) \/
   (opener = u "//" /\ closer = line_end)) ->
  matches (Seq (Lit opener) (Seq baseRegex closer))
          (MState i (skipn i (pre ++ u "//# sourceMappingURL=" ++ ref ++ tail)) []) st' ->
  exists ref' p,
    no_space ref' /\ ref' ++ rest p = ref ++ tail /\ matches line_end p st'.
Proof.
  intros Hne Href Hnom Hoc Hm.
  set (text := pre ++ u "//# sourceMappingURL=" ++ ref ++ tail) in *.
  apply directive_match_shape in Hm
    as (w1 & c & w2 & w3 & w4 & ref' & closed & p & Hw1 & Hc & Hw2 & Hw3 & Hw4 & Href'
        & E & P & Hno & Ep & Ecaps & Hclose).
  assert (Etext : (firstn i text ++ opener ++ w1 ++ c :: w2) ++ marker
                    ++ (w3 ++ 61%N :: w4 ++ ref' ++ closed ++ rest st')
                  = (pre ++ u "//# ") ++ marker ++ (61%N :: ref ++ tail)).
  { pose proof (firstn_skipn i text) as Hfs. rewrite E in Hfs. unfold text in Hfs at 2.
    change (u "//# sourceMappingURL=") with (u "//# " ++ marker ++ [61%N]) in Hfs.
    by_assoc Hfs. }
  apply marker_align in Etext as [[EA EX] | [(D & EB & EX) | (D & EA & EY)]].
  2: { exfalso. exact (earlier_marker_contra pre _ D w3 w4 ref' (closed ++ rest st') _
                         EB EX Hw3 Hw4 Href' Hno). }
  2: { exfalso. apply Hnom. exact (later_marker_contra D _ ref tail EY). }
  assert (Hop : opener = u "/*" \/ opener = u "//") by (destruct Hoc as [[-> _] | [-> _]]; auto).
  apply head_of_line_directive in EA as (Epre & -> & -> & -> & ->); auto.
  assert (Hclosed : closer = line_end).
  { destruct Hoc as [[Hbad _] | [_ ->]]; [discriminate Hbad | reflexivity]. }
  subst closer.
  destruct w3 as [|s3 w3'].
  2: { exfalso. injection EX as -> _. apply Forall_inv in Hw3.
       vm_compute in Hw3. discriminate. }
  cbn [app] in EX. injection EX as EX.
  destruct ref as [|r0 ref0]; [congruence|].
  assert (Hr0 : is_space r0 = false).
  { pose proof (Forall_inv Href) as Hr. unfold non_space in Hr.
    now destruct (is_space r0). }
  destruct w4 as [|s4 w4'].
  2: { exfalso. injection EX as -> _. apply Forall_inv in Hw4. congruence. }
  cbn [app] in EX. rewrite <- Ep in EX.
  exists ref', p. auto.
Qed.

(** X15: white space between the reference and the end of the line
    disables a line directive.  When [//# sourceMappingURL=ref] is followed
    by a blank, a tab or other white space that is no line break, and the
    marker does not occur after it, no directive is found in the text,
    whatever stands before; the loader returns the text unchanged. *)
Theorem blank_after_reference (h : Host) (context : str) (given : Options)
        (pre ref : str) (x : cu) (tail : str) :
  ref <> [] -> no_space ref ->
  is_space x = true -> x <> LF -> x <> CR ->
  ~ contains_marker (ref ++ x :: tail) ->
  let text := pre ++ u "//# sourceMappingURL=" ++ ref ++ x :: tail in
  find_directive text = None /\
  loader h context given text None =
    (if has_cacheable h then [Cacheable] else [], mkLoaderResult text None).
Proof.
  intros Hne Href Hx Hlf Hcr Hnom text.
  assert (Hfd : find_directive text = None).
  { destruct (find_directive text) as [mt|] eqn:E; [|reflexivity]. exfalso.
    apply found_match in E as (opener & closer & st' & Hoc & Hm & _).
    assert (Hoc' : (opener = u "/*" /\ closer = Seq ws (Lit (u "*/"))) \/
                   (opener = u "//" /\ closer = line_end)).
    { destruct Hoc as [H | (H1 & H2 & _)]; auto. }
    destruct (line_directive_aligned pre ref (x :: tail) opener closer (index mt) st'
                Hne Href Hnom Hoc' Hm) as (ref' & p & Href' & EX & Hclose).
    assert (Hy : exists y tl, rest p = y :: tl /\ y <> LF /\ y <> CR).
    { apply app_eq_app in EX as [l [[E1 E2] | [E1 E2]]].
      - destruct l as [|y l'].
        + simpl in E2. exists x, tail. auto.
        + exfalso. injection E2 as <- _. rewrite E1 in Href'.
          apply Forall_app in Href' as [_ H']. apply Forall_inv in H'.
          unfold non_space in H'. rewrite Hx in H'. discriminate.
      - destruct l as [|y l'].
        + simpl in E2. exists x, tail. auto.
        + exists y, (l' ++ x :: tail). split; [exact E2|].
          rewrite E1 in Href. apply Forall_app in Href as [_ H'].
          apply Forall_inv in H'. unfold non_space in H'.
          split; intros ->; vm_compute in H'; discriminate. }
    destruct Hy as (y & tl & Ey & Hylf & Hycr).
    destruct Hclose as [[_ Hnil] | [(c' & tl' & Ec' & Hc' & _) |
                                    (mid & (c' & tl' & Ec' & Hc' & _) & _)]].
    - congruence.
    - rewrite Ey in Ec'. injection Ec' as <- _. apply N.eqb_eq in Hc'. congruence.
    - rewrite Ey in Ec'. injection Ec' as <- _. apply N.eqb_eq in Hc'. congruence. }
  split; [exact Hfd|].
  unfold loader.
  destruct text as [|c tl] eqn:Et.
  - exfalso. unfold text in Et. destruct pre; discriminate.
  - rewrite Hfd. reflexivity.
Qed.

Lemma blank_after_reference_witness :
  find_directive (u "var a = 1;" ++ [LF] ++ u "//# sourceMappingURL=bundle.js.map "
                    ++ [LF]) = None.
Proof.
  refine (proj1 (blank_after_reference Examples.rooted_host Examples.fixtures
                   (mkOptions None)
                   (u "var a = 1;" ++ [LF]) (u "bundle.js.map") 32%N [LF] _ _ _ _ _ _)).
  - discriminate.
  - repeat constructor.
  - reflexivity.
  - discriminate.
  - discriminate.
  - apply contains_markerP. vm_compute. reflexivity.
Defined.

(** ** The block directive at the end of a text *)

Lemma head_of_block_directive L opener w1 c w2 pre :
  (opener = u "/*" \/ opener = u "//") ->
  spaces w1 -> at_or_hash c = true -> spaces w2 ->
  L ++ opener ++ w1 ++ c :: w2 = pre ++ u "/*# " ->
  L = pre /\ opener = u "/*" /\ w1 = [] /\ c = 35%N /\ w2 = [32%N].
Proof.
  intros Hop Hw1 Hc Hw2 E.
  change (u "/*# ") with ([47%N; 42%N; 35%N; 32%N]) in E.
  induction w2 as [|z w2' _] using rev_ind.
  - exfalso.
    assert (E' : (L ++ opener ++ w1) ++ [c] = (pre ++ [47%N; 42%N; 35%N]) ++ [32%N])
      by by_assoc E.
    apply app_inj_tail in E' as [_ ->]. vm_compute in Hc. discriminate.
  - assert (E' : (L ++ opener ++ w1 ++ c :: w2') ++ [z]
                 = (pre ++ [47%N; 42%N; 35%N]) ++ [32%N]) by by_assoc E.
    apply app_inj_tail in E' as [E' ->].
    assert (Hw2' : w2' = []).
    { induction w2' as [|z' w2'' _] using rev_ind; [reflexivity|]. exfalso.
      assert (E'' : (L ++ opener ++ w1 ++ c :: w2'') ++ [z']
                    = (pre ++ [47%N; 42%N]) ++ [35%N]) by by_assoc E'.
      apply app_inj_tail in E'' as [_ ->].
      apply Forall_app in Hw2 as [Hw2 _]. apply spaces_last in Hw2.
      vm_compute in Hw2. discriminate. }
    subst w2'.
    assert (E'' : (L ++ opener ++ w1) ++ [c] = (pre ++ [47%N; 42%N]) ++ [35%N])
      by by_assoc E'.
    apply app_inj_tail in E'' as [E'' ->].
    assert (E3 : (L ++ opener) ++ w1 = (pre ++ [47%N]) ++ [42%N]) by by_assoc E''.
    apply spaces_before in E3 as [-> E3]; [|exact Hw1|reflexivity].
    assert (E4 : L ++ opener = pre ++ u "/*").
    { rewrite E3, <- app_assoc. reflexivity. }
    apply app_same_length in E4 as [-> E4];
      [|destruct Hop as [-> | ->]; reflexivity].
    auto.
Qed.

Lemma earlier_marker_contra_block pre A D w3 w4 ref' R Y :
  pre ++ u "/*# " = A ++ marker ++ D ->
  w3 ++ 61%N :: w4 ++ ref' ++ R = D ++ marker ++ Y ->
  spaces w3 -> spaces w4 -> no_space ref' -> ~ contains_marker R -> False.
Proof.
  intros EB EX Hw3 Hw4 Href HR.
  change (u "/*# ") with ([47%N; 42%N; 35%N; 32%N]) in EB.
  assert (HD : exists l, D = l ++ [47%N; 42%N; 35%N; 32%N]).
  { rewrite app_assoc in EB. apply app_eq_app in EB as [l [[_ ED] | [EA ES]]].
    - exists l. exact ED.
    - induction l as [|z l' _] using rev_ind.
      + exists []. simpl in ES. auto.
      + exfalso.
        assert (Hz : z = 76%N).
        { change marker with (firstn 15 marker ++ [76%N]) in EA.
          rewrite !app_assoc in EA. now apply app_inj_tail in EA as [_ <-]. }
        assert (Hin : In z [47%N; 42%N; 35%N; 32%N]).
        { rewrite ES, <- app_assoc. apply in_elt. }
        subst z. simpl in Hin. intuition discriminate. }
  destruct HD as [l ->].
  set (P1 := w3 ++ 61%N :: w4) in *.
  assert (EX' : (P1 ++ ref') ++ R = (l ++ [47%N; 42%N; 35%N; 32%N]) ++ marker ++ Y).
  { unfold P1. by_assoc EX. }
  assert (HP1 : forall x, In x P1 -> is_space x = true \/ x = 61%N).
  { intros x Hx. unfold P1 in Hx. apply in_app_or in Hx as [Hx | [<- | Hx]]; auto.
    - left. exact (proj1 (Forall_forall _ _) Hw3 x Hx).
    - left. exact (proj1 (Forall_forall _ _) Hw4 x Hx). }
  destruct (Nat.le_gt_cases (length (P1 ++ ref')) (length l + 4)) as [Hle | Hgt].
  - apply HR. exists (skipn (length (P1 ++ ref')) (l ++ [47%N; 42%N; 35%N; 32%N])), Y.
    assert (HRk : skipn (length (P1 ++ ref')) ((P1 ++ ref') ++ R) = R).
    { rewrite skipn_app, Nat.sub_diag, skipn_all. reflexivity. }
    rewrite <- HRk at 1. rewrite EX', skipn_app.
    replace (length (P1 ++ ref') - length (l ++ [47%N; 42%N; 35%N; 32%N])) with 0
      by (rewrite (length_app l); simpl; lia).
    reflexivity.
  - assert (Hn : forall j x, j < 4 -> nth_error [47%N; 42%N; 35%N; 32%N] j = Some x ->
                             nth_error (P1 ++ ref') (length l + j) = Some x).
    { intros j x Hj Hx.
      rewrite <- (nth_error_app1 (P1 ++ ref') R) by lia. rewrite EX'.
      rewrite <- app_assoc. rewrite nth_error_app2 by lia.
      replace (length l + j - length l) with j by lia.
      rewrite nth_error_app1 by (simpl; lia). exact Hx. }
    pose proof (Hn 0 47%N ltac:(lia) eq_refl) as H0.
    pose proof (Hn 3 32%N ltac:(lia) eq_refl) as H3.
    rewrite Nat.add_0_r in H0.
    destruct (Nat.lt_ge_cases (length l) (length P1)) as [Hin | Hout].
    + rewrite nth_error_app1 in H0 by exact Hin. apply nth_error_In in H0.
      destruct (HP1 _ H0) as [Hs | Hs]; vm_compute in Hs; discriminate.
    + rewrite nth_error_app2 in H3 by lia. apply nth_error_In in H3.
      pose proof (proj1 (Forall_forall _ _) Href _ H3) as Hs.
      vm_compute in Hs. discriminate.
Qed.

Lemma block_directive_unique pre ref gap tail opener closer i st' :
  ref <> [] -> no_space ref -> gap <> [] -> spaces gap -> ~ contains_close ref ->
  ~ contains_marker (ref ++ gap ++ u "*/" ++ tail) ->
  ((opener = u "/*" /\ closer = Seq ws (Lit (u "*/"))) \/
   (opener = u "//" /\ closer = line_end)) ->
  i <= length (pre ++ u "/*# sourceMappingURL=" ++ ref ++ gap ++ u "*/" ++ tail) ->
  matches (Seq (Lit opener) (Seq baseRegex closer))
          (MState i (skipn i (pre ++ u "/*# sourceMappingURL=" ++ ref ++ gap
                                  ++ u "*/" ++ tail)) []) st' ->
  i = length pre /\ get_cap 1 (caps st') = Some ref /\
  firstn (pos st' - i)
         (skipn i (pre ++ u "/*# sourceMappingURL=" ++ ref ++ gap ++ u "*/" ++ tail))
  = u "/*# sourceMappingURL=" ++ ref ++ gap ++ u "*/".
Proof.
  intros Hne Href Hgne Hgap Hnc Hnom Hoc Hi Hm.
  set (T := gap ++ u "*/" ++ tail) in *.
  set (text := pre ++ u "/*# sourceMappingURL=" ++ ref ++ T) in *.
  apply directive_match_shape in Hm
    as (w1 & c & w2 & w3 & w4 & ref' & closed & p & Hw1 & Hc & Hw2 & Hw3 & Hw4 & Href'
        & E & P & Hno & Ep & Ecaps & Hclose).
  assert (Etext : (firstn i text ++ opener ++ w1 ++ c :: w2) ++ marker
                    ++ (w3 ++ 61%N :: w4 ++ ref' ++ closed ++ rest st')
                  = (pre ++ u "/*# ") ++ marker ++ (61%N :: ref ++ T)).
  { pose proof (firstn_skipn i text) as Hfs. rewrite E in Hfs. unfold text in Hfs at 2.
    change (u "/*# sourceMappingURL=") with (u "/*# " ++ marker ++ [61%N]) in Hfs.
    by_assoc Hfs. }
  apply marker_align in Etext as [[EA EX] | [(D & EB & EX) | (D & EA & EY)]].
  2: { exfalso. exact (earlier_marker_contra_block pre _ D w3 w4 ref' (closed ++ rest st') _
                         EB EX Hw3 Hw4 Href' Hno). }
  2: { exfalso. apply Hnom. exact (later_marker_contra D _ ref T EY). }
  assert (Hop : opener = u "/*" \/ opener = u "//") by (destruct Hoc as [[-> _] | [-> _]]; auto).
  apply head_of_block_directive in EA as (Epre & -> & -> & -> & ->); auto.
  assert (Hclosed : closer = Seq ws (Lit (u "*/"))).
  { destruct Hoc as [[_ ->] | [Hbad _]]; [reflexivity | discriminate Hbad]. }
  subst closer.
  assert (Ei : i = length pre).
  { rewrite <- Epre. rewrite length_firstn. lia. }
  destruct w3 as [|s3 w3'].
  2: { exfalso. injection EX as -> _. apply Forall_inv in Hw3.
       vm_compute in Hw3. discriminate. }
  cbn [app] in EX. injection EX as EX.
  destruct ref as [|r0 ref0]; [congruence|].
  assert (Hr0 : is_space r0 = false).
  { pose proof (Forall_inv Href) as Hr. unfold non_space in Hr.
    now destruct (is_space r0). }
  destruct w4 as [|s4 w4'].
  2: { exfalso. injection EX as -> _. apply Forall_inv in Hw4. congruence. }
  cbn [app] in EX. rewrite <- Ep in EX.
  pose proof Hclose as (mid & Hws & Hlit).
  apply star_Chr in Hws as (w & Hw & Ew & _).
  apply matches_Lit in Hlit as (tl & Elit & Est'). rewrite Elit in Ew.
  assert (Etl : rest st' = tl) by (rewrite Est'; reflexivity).
  destruct gap as [|g0 gap']; [congruence|].
  pose proof (Forall_inv Hgap) as Hg0. cbn beta in Hg0.
  assert (Hrp : ref' = r0 :: ref0 /\ rest p = T).
  { change (r0 :: ref0 ++ T) with ((r0 :: ref0) ++ T) in EX.
    apply app_eq_app in EX as [l [[E1 E2] | [E1 E2]]].
    - destruct l as [|y l'].
      + rewrite app_nil_r in E1. simpl in E2. auto.
      + exfalso. unfold T in E2. injection E2 as <- _. rewrite E1 in Href'.
        apply Forall_app in Href' as [_ H']. apply Forall_inv in H'.
        unfold non_space in H'. rewrite Hg0 in H'. discriminate.
    - destruct l as [|y l'].
      + rewrite app_nil_r in E1. simpl in E2. auto.
      + exfalso.
        assert (Hy : is_space y = false).
        { rewrite E1 in Href. apply Forall_app in Href as [_ H'].
          apply Forall_inv in H'. unfold non_space in H'. now destruct (is_space y). }
        rewrite E2 in Ew.
        destruct w as [|s w'].
        2: { injection Ew as <- _. apply Forall_inv in Hw. cbn beta in Hw. congruence. }
        simpl in Ew. injection Ew as -> Ew.
        destruct l' as [|y' l''].
        * unfold T in Ew. simpl in Ew. injection Ew as Eg _. subst g0.
          vm_compute in Hg0. discriminate.
        * simpl in Ew. injection Ew as -> _.
          apply Hnc. exists ref', l''. exact E1. }
  destruct Hrp as [-> Hp].
  assert (Hcl : closed = (g0 :: gap') ++ u "*/" /\ rest st' = tail).
  { rewrite Hp in Ew. unfold T in Ew.
    assert (Hw' : w = g0 :: gap' /\ tl = tail).
    { apply app_eq_app in Ew as [l [[E1 E2] | [E1 E2]]].
      - destruct l as [|y l'].
        + rewrite app_nil_r in E1. simpl in E2. injection E2 as E2. auto.
        + exfalso. vm_compute in E2. injection E2 as <- _.
          rewrite E1 in Hgap. apply Forall_app in Hgap as [_ H'].
          apply Forall_inv in H'. vm_compute in H'. discriminate.
      - destruct l as [|y l'].
        + rewrite app_nil_r in E1. simpl in E2. injection E2 as E2. auto.
        + exfalso. vm_compute in E2. injection E2 as <- _.
          rewrite E1 in Hw. apply Forall_app in Hw as [_ H'].
          apply Forall_inv in H'. vm_compute in H'. discriminate. }
    destruct Hw' as [_ ->]. split; [|exact Etl].
    rewrite Hp, Etl in Ep. unfold T in Ep. rewrite app_assoc in Ep.
    apply app_inv_tail in Ep. auto. }
  destruct Hcl as [Hcl _].
  split; [exact Ei|]. split.
  - rewrite (group_free_caps (Seq ws (Lit (u "*/"))) p st' eq_refl Hclose), Ecaps.
    reflexivity.
  - rewrite P, E.
    match goal with |- firstn (_ + length ?w - _) _ = _ =>
      replace (i + length w - i) with (length w) by lia end.
    rewrite firstn_app, Nat.sub_diag, firstn_all, firstn_O, app_nil_r, Hcl.
    app_norm. reflexivity.
Qed.

Lemma block_directive_matches pre ref gap tail :
  no_space ref -> spaces gap -> ~ contains_marker (gap ++ u "*/" ++ tail) ->
  exists st',
    matches regex1
      (MState (length pre)
              (skipn (length pre)
                     (pre ++ u "/*# sourceMappingURL=" ++ ref ++ gap ++ u "*/" ++ tail)) [])
      st'.
Proof.
  intros Href Hgap Hno.
  rewrite skipn_app, Nat.sub_diag, skipn_all. cbn [app skipn].
  change (u "/*# sourceMappingURL=")
    with (u "/*" ++ 35%N :: 32%N :: marker ++ [61%N]).
  set (n := length pre).
  set (T := gap ++ u "*/" ++ tail) in *.
  set (p := MState (S (S (S (n + 2)) + 16) + length ref) T [(1, ref)]).
  exists (MState (pos p + length gap + length (u "*/")) tail (caps p)).
  exists (MState (n + 2) (35%N :: 32%N :: marker ++ 61%N :: ref ++ T) []). split.
  { apply matches_Lit. eexists. split; [|reflexivity]. cbn [rest]. app_norm. reflexivity. }
  exists p. split.
  2: { exists (MState (pos p + length gap) (u "*/" ++ tail) (caps p)). split.
       - apply star_Chr. exists gap. auto.
       - apply matches_Lit. exists tail. auto. }
  apply baseRegex_with_split. exists p. split.
  - exists (MState (n + 2) (35%N :: 32%N :: marker ++ 61%N :: ref ++ T) []).
    split; [apply star_done|].
    exists (MState (S (n + 2)) (32%N :: marker ++ 61%N :: ref ++ T) []).
    split; [exists 35%N, (32%N :: marker ++ 61%N :: ref ++ T); auto|].
    exists (MState (S (S (n + 2))) (marker ++ 61%N :: ref ++ T) []).
    split.
    { eapply star_step; [exists 32%N, (marker ++ 61%N :: ref ++ T); auto
                        | cbn [rest length]; lia | apply star_done]. }
    exists (MState (S (S (n + 2)) + 16) (61%N :: ref ++ T) []).
    split; [apply matches_Lit; exists (61%N :: ref ++ T); auto|].
    exists (MState (S (S (n + 2)) + 16) (61%N :: ref ++ T) []).
    split; [apply star_done|].
    exists (MState (S (S (S (n + 2)) + 16)) (ref ++ T) []).
    split; [exists 61%N, (ref ++ T); auto|].
    exists (MState (S (S (S (n + 2)) + 16)) (ref ++ T) []).
    split; [apply star_done|].
    exists p. split; [|reflexivity].
    exists (MState (S (S (S (n + 2)) + 16) + length ref) T []). split.
    + apply star_Chr. exists ref. auto.
    + unfold p. cbn [pos rest caps]. f_equal. f_equal. f_equal.
      replace (S (S (S (n + 2)) + 16) + length ref - S (S (S (n + 2)) + 16))
        with (length ref) by lia.
      rewrite firstn_app, Nat.sub_diag, firstn_all, firstn_O, app_nil_r. reflexivity.
  - split; [reflexivity|]. intros x (mid & Hs & Hl).
    apply star_Chr in Hs as (w & _ & Ew & Emid).
    apply matches_Lit in Hl as (tl & El & _).
    apply Hno. exists w, tl. unfold p in Ew. cbn [rest] in Ew.
    rewrite El in Ew. exact Ew.
Qed.

(** X16: a block directive [/*# sourceMappingURL=ref */] is the directive
    found, whatever stands before it, when the marker does not occur after
    it, [ref] is not empty and has neither white space nor [*/] nor the
    marker in it, and white space stands between [ref] and [*/]: the match
    starts at the comment and spans it, and the reference is [ref]. *)
Theorem final_block_directive_found (pre ref gap tail : str) :
  ref <> [] -> no_space ref -> gap <> [] -> spaces gap -> ~ contains_close ref ->
  ~ contains_marker (ref ++ gap ++ u "*/" ++ tail) ->
  find_directive (pre ++ u "/*# sourceMappingURL=" ++ ref ++ gap ++ u "*/" ++ tail) =
    Some (MatchResult (length pre)
            (u "/*# sourceMappingURL=" ++ ref ++ gap ++ u "*/") (Some ref)).
Proof.
  intros Hne Href Hgne Hgap Hnc Hno.
  destruct (find_directive _) as [mt|] eqn:E.
  - apply found_match in E as (opener & closer & st' & Hoc & Hm & Hw & Hg & Hi).
    assert (Hoc' : (opener = u "/*" /\ closer = Seq ws (Lit (u "*/"))) \/
                   (opener = u "//" /\ closer = line_end)).
    { destruct Hoc as [H | (H1 & H2 & _)]; auto. }
    destruct (block_directive_unique pre ref gap tail opener closer (index mt) st'
                Hne Href Hgne Hgap Hnc Hno Hoc' Hi Hm) as (Ei & Ecap & Ewhole).
    destruct mt as [i w g]. cbn [index whole group1] in *.
    rewrite Ewhole in Hw. rewrite Ecap in Hg. subst. reflexivity.
  - exfalso.
    assert (Hno' : ~ contains_marker (gap ++ u "*/" ++ tail)).
    { intros (a & b & Hab). apply Hno. exists (ref ++ a), b.
      rewrite Hab. now rewrite app_assoc. }
    destruct (block_directive_matches pre ref gap tail Href Hgap Hno') as [st' Hm].
    destruct (exec_complete regex1
                (pre ++ u "/*# sourceMappingURL=" ++ ref ++ gap ++ u "*/" ++ tail)
                (length pre) st') as [mr Hmr]; [|exact Hm|].
    + rewrite length_app. lia.
    + unfold find_directive in E. rewrite Hmr in E. discriminate.
Qed.

Lemma contains_closeP s : contains_closeb s = false -> ~ contains_close s.
Proof.
  unfold contains_closeb. intros H (a & b & ->).
  assert (Hex : existsb (fun q => startsWith (u "*/") (skipn q (a ++ u "*/" ++ b)))
                        (seq 0 (S (length (a ++ u "*/" ++ b)))) = true).
  { apply existsb_exists. exists (length a). split.
    - apply in_seq. rewrite length_app. lia.
    - rewrite skipn_app, Nat.sub_diag, skipn_all. reflexivity. }
  congruence.
Qed.

Lemma final_block_directive_found_witness :
  find_directive (u "a { color: red }" ++ [LF] ++ u "/*# sourceMappingURL=style.css.map */") =
    Some (MatchResult 17 (u "/*# sourceMappingURL=style.css.map */")
                      (Some (u "style.css.map"))).
Proof.
  apply (final_block_directive_found (u "a { color: red }" ++ [LF]) (u "style.css.map")
           [32%N] []).
  - discriminate.
  - repeat constructor.
  - discriminate.
  - repeat constructor.
  - apply contains_closeP. vm_compute. reflexivity.
  - apply contains_markerP. vm_compute. reflexivity.
Defined.

(** ** A text with one directive *)

Lemma marker_before_head pre A D :
  pre ++ u "//# " = A ++ marker ++ D -> contains_marker pre.
Proof.
  intros EB. change (u "//# ") with ([47%N; 47%N; 35%N; 32%N]) in EB.
  rewrite app_assoc in EB. apply app_eq_app in EB as [l [[Epre _] | [EA ES]]].
  - exists A, l. rewrite Epre, <- app_assoc. reflexivity.
  - induction l as [|z l' _] using rev_ind.
    + exists A, []. rewrite app_nil_r in EA. rewrite <- EA. now rewrite !app_nil_r.
    + exfalso.
      assert (Hz : z = 76%N).
      { change marker with (firstn 15 marker ++ [76%N]) in EA.
        rewrite !app_assoc in EA. now apply app_inj_tail in EA as [_ <-]. }
      assert (Hin : In z [47%N; 47%N; 35%N; 32%N]).
      { rewrite ES, <- app_assoc. apply in_elt. }
      subst z. simpl in Hin. intuition discriminate.
Qed.

(** X17: the loader on a text with one directive, a line directive after
    which the marker does not occur and before which it does not occur
    either.  When the map behind the reference loads, the text returned is
    the text before the directive followed by the text after its line feed,
    with the enriched map; the events are those of loading the map. *)
Theorem single_directive_removed (h : Host) (context : str) (given : Options)
        (pre ref tail : str) (t : list event) (sourceMap : RawSourceMap) :
  ~ contains_marker pre ->
  ref <> [] -> no_space ref -> (tail = [] \/ exists t0, tail = LF :: t0) ->
  ~ contains_marker (ref ++ tail) ->
  loadSourceMap h context ref
    (truthy_option (keepRelativeSources (assign_options DEFAULT_OPTIONS given)))
  = (t, inr sourceMap) ->
  loader h context given (pre ++ u "//# sourceMappingURL=" ++ ref ++ tail) None =
    ((if has_cacheable h then [Cacheable] else []) ++ t,
     mkLoaderResult (pre ++ skipn 1 tail) (Some sourceMap)).
Proof.
  intros Hpre Hne Href Htail Hno Hload.
  set (text := pre ++ u "//# sourceMappingURL=" ++ ref ++ tail).
  set (whole_text := u "//# sourceMappingURL=" ++ ref ++ firstn 1 tail).
  pose proof (line_directive_found pre ref tail Hne Href Htail Hno) as Hfd.
  fold text whole_text in Hfd.
  destruct (loader_rewrites h context given text _ t sourceMap Hfd Hload) as [Hl Hex].
  rewrite Hl. f_equal. f_equal. cbn [whole index] in Hex |- *.
  rewrite Hex.
  - unfold excise, text. rewrite firstn_app, Nat.sub_diag, firstn_all, firstn_O, app_nil_r.
    f_equal. rewrite skipn_app.
    replace (length pre + length whole_text - length pre) with (length whole_text) by lia.
    rewrite (skipn_all2 pre) by lia. cbn [app].
    unfold whole_text.
    assert (Et : tail = firstn 1 tail ++ skipn 1 tail) by (symmetry; apply firstn_skipn).
    rewrite Et at 2.
    replace (u "//# sourceMappingURL=" ++ ref ++ firstn 1 tail ++ skipn 1 tail)
      with ((u "//# sourceMappingURL=" ++ ref ++ firstn 1 tail) ++ skipn 1 tail)
      by (app_norm; reflexivity).
    rewrite skipn_app, Nat.sub_diag, skipn_all. reflexivity.
  - intros k Hk. destruct (startsWith whole_text (skipn k text)) eqn:Hs; [|reflexivity].
    exfalso. apply startsWith_spec in Hs as [z Hz].
    assert (Etext : (firstn k text ++ u "//# ") ++ marker ++ (61%N :: ref ++ firstn 1 tail ++ z)
                    = (pre ++ u "//# ") ++ marker ++ (61%N :: ref ++ tail)).
    { pose proof (firstn_skipn k text) as Hfs. rewrite Hz in Hfs.
      unfold whole_text in Hfs. unfold text in Hfs at 2.
      change (u "//# sourceMappingURL=") with (u "//# " ++ marker ++ [61%N]) in Hfs.
      by_assoc Hfs. }
    assert (Hlen : length (firstn k text) = k).
    { rewrite length_firstn. unfold text. rewrite length_app. lia. }
    apply marker_align in Etext as [[EA _] | [(D & EB & _) | (D & EA & _)]].
    + apply (f_equal (@length cu)) in EA. rewrite !length_app, Hlen in EA. lia.
    + rewrite <- app_assoc in EB.
      assert (EB' : (pre ++ u "//# ") = firstn k text ++ u "//# " ++ marker ++ D)
        by exact EB.
      apply Hpre.
      change (u "//# ") with ([47%N; 47%N; 35%N; 32%N]) in EB'.
      assert (Hk4 : exists pre', pre = firstn k text ++ pre').
      { exists (skipn k pre). rewrite <- (firstn_skipn k pre) at 1. f_equal.
        unfold text. rewrite firstn_app.
        replace (k - length pre) with 0 by lia. rewrite firstn_O, app_nil_r.
        reflexivity. }
      destruct Hk4 as [pre' Hpre'].
      rewrite Hpre' in EB' at 1. rewrite <- app_assoc in EB'.
      apply app_inv_head in EB'.
      destruct (marker_before_head pre' [47%N; 47%N; 35%N; 32%N] D EB') as (a & b & Hab).
      exists (firstn k text ++ a), b. rewrite Hpre', Hab, <- app_assoc. reflexivity.
    + apply (f_equal (@length cu)) in EA. rewrite !length_app, Hlen in EA.
      change (length marker) with 16 in EA. lia.
Qed.

Lemma single_directive_removed_witness :
  loader Examples.rooted_host Examples.fixtures (mkOptions None)
         (u "var a = 1;" ++ [LF] ++ u "//# sourceMappingURL=bundle.js.map") None =
    ([Cacheable;
      ReadFile (u "/fixtures/bundle.js.map") true;
      AddDependency (u "/fixtures/bundle.js.map");
      ReadFile (u "/fixtures/src/a.ts") true;
      AddDependency (u "/fixtures/src/a.ts")],
     mkLoaderResult (u "var a = 1;" ++ [LF])
       (Some (mkRawSourceMap 3 (Some (u "bundle.js")) None [u "/fixtures/src/a.ts"] []
                (Some [JString (u "let a = 1")]) (u "AAAA")))).
Proof.
  apply (single_directive_removed Examples.rooted_host Examples.fixtures (mkOptions None)
           (u "var a = 1;" ++ [LF]) (u "bundle.js.map") []
           [ReadFile (u "/fixtures/bundle.js.map") true;
            AddDependency (u "/fixtures/bundle.js.map");
            ReadFile (u "/fixtures/src/a.ts") true;
            AddDependency (u "/fixtures/src/a.ts")]).
  - apply contains_markerP. vm_compute. reflexivity.
  - discriminate.
  - repeat constructor.
  - left. reflexivity.
  - apply contains_markerP. vm_compute. reflexivity.
  - vm_compute. reflexivity.
Defined.
